(** * GrabCut interactive segmentation: the session state machine

    A shallow embedding of [grabcut.py]: the [GrabCut] object, its two mouse
    callbacks ([draw_rectangle], [draw_markers]), [segment], and the two
    event loops of [run], followed by the properties of the interaction
    state machine.

    OpenCV is an external collaborator.  Its graph-cut engine and the exact
    pixel sets of its drawing primitives are taken through the interface
    [Cv2]; everything else ([np.where], [cv2.bitwise_and] under a mask,
    [str.endswith]) is written out. *)

From Stdlib Require Import ZArith String Ascii Bool Lia.
From stdpp Require Import base option list strings gmap.

Local Open Scope Z_scope.

(** ** Data model *)

(** A BGR pixel, 8 bits per channel. *)
Abbreviation Pixel := (Z * Z * Z)%type (only parsing).

(** Row-major grids: [img !! row !! col]. They are abbreviations, so that
    the list lemmas apply to them as they stand. *)
Abbreviation Grid A := (list (list A)) (only parsing).
Abbreviation Image := (list (list Pixel)) (only parsing).
Abbreviation Mask := (list (list Z)) (only parsing).

(** [(x, y, w, h)] as passed to [cv2.grabCut]. *)
Abbreviation Rect := (Z * Z * Z * Z)%type (only parsing).

(** The four labels of [cv2.grabCut]. *)
Definition GC_BGD : Z := 0.
Definition GC_FGD : Z := 1.
Definition GC_PR_BGD : Z := 2.
Definition GC_PR_FGD : Z := 3.

Inductive GrabCutMode := GC_INIT_WITH_RECT | GC_INIT_WITH_MASK.

(** [cv2.grabCut] works on the mask in place and either returns or raises
    [cv2.error]; in both cases [m] is what it leaves in the mask. *)
Inductive grabCut_result :=
| Returned (m : Mask)
| Raised (m : Mask).

Inductive MouseEvent :=
| EVENT_MOUSEMOVE
| EVENT_LBUTTONDOWN
| EVENT_LBUTTONUP
| EVENT_OTHER.

(** What [cv2.waitKey(0)] delivers: mouse callbacks fired while it blocks,
    and finally the code of the key that was pressed. *)
Inductive Event :=
| Mouse (event : MouseEvent) (mx my : Z)
| Key (key : Z).

(** The external library. [in_circle (cx, cy) r (px, py)] tells whether
    [cv2.circle] with thickness [-1] paints pixel [(px, py)];
    [in_rectangle pt1 pt2 t (px, py)] does the same for the outline drawn by
    [cv2.rectangle] with thickness [t]. *)
Class Cv2 := {
  grabCut : Image -> Mask -> option Rect -> GrabCutMode -> grabCut_result;
  in_circle : Z * Z -> Z -> Z * Z -> bool;
  in_rectangle : Z * Z -> Z * Z -> Z -> Z * Z -> bool
}.

(** The attributes of a [GrabCut] instance. *)
Record GrabCut := mkGrabCut {
  original_image : Image;
  image : Image;
  segmented_image : Image;
  mask : Mask;
  output_path : string;
  x : Z;
  y : Z;
  w : Z;
  h : Z;
  rect : option Rect;
  drawing : bool;
  background : bool;
  segmentation_initialized : bool
}.

Definition set_image (v : Image) (self : GrabCut) : GrabCut :=
  mkGrabCut (original_image self) v (segmented_image self) (mask self)
    (output_path self) (x self) (y self) (w self) (h self) (rect self)
    (drawing self) (background self) (segmentation_initialized self).

Definition set_segmented_image (v : Image) (self : GrabCut) : GrabCut :=
  mkGrabCut (original_image self) (image self) v (mask self)
    (output_path self) (x self) (y self) (w self) (h self) (rect self)
    (drawing self) (background self) (segmentation_initialized self).

Definition set_mask (v : Mask) (self : GrabCut) : GrabCut :=
  mkGrabCut (original_image self) (image self) (segmented_image self) v
    (output_path self) (x self) (y self) (w self) (h self) (rect self)
    (drawing self) (background self) (segmentation_initialized self).

Definition set_x (v : Z) (self : GrabCut) : GrabCut :=
  mkGrabCut (original_image self) (image self) (segmented_image self)
    (mask self) (output_path self) v (y self) (w self) (h self) (rect self)
    (drawing self) (background self) (segmentation_initialized self).

Definition set_y (v : Z) (self : GrabCut) : GrabCut :=
  mkGrabCut (original_image self) (image self) (segmented_image self)
    (mask self) (output_path self) (x self) v (w self) (h self) (rect self)
    (drawing self) (background self) (segmentation_initialized self).

Definition set_w (v : Z) (self : GrabCut) : GrabCut :=
  mkGrabCut (original_image self) (image self) (segmented_image self)
    (mask self) (output_path self) (x self) (y self) v (h self) (rect self)
    (drawing self) (background self) (segmentation_initialized self).

Definition set_h (v : Z) (self : GrabCut) : GrabCut :=
  mkGrabCut (original_image self) (image self) (segmented_image self)
    (mask self) (output_path self) (x self) (y self) (w self) v (rect self)
    (drawing self) (background self) (segmentation_initialized self).

Definition set_rect (v : option Rect) (self : GrabCut) : GrabCut :=
  mkGrabCut (original_image self) (image self) (segmented_image self)
    (mask self) (output_path self) (x self) (y self) (w self) (h self) v
    (drawing self) (background self) (segmentation_initialized self).

Definition set_drawing (v : bool) (self : GrabCut) : GrabCut :=
  mkGrabCut (original_image self) (image self) (segmented_image self)
    (mask self) (output_path self) (x self) (y self) (w self) (h self)
    (rect self) v (background self) (segmentation_initialized self).

Definition set_background (v : bool) (self : GrabCut) : GrabCut :=
  mkGrabCut (original_image self) (image self) (segmented_image self)
    (mask self) (output_path self) (x self) (y self) (w self) (h self)
    (rect self) (drawing self) v (segmentation_initialized self).

Definition set_segmentation_initialized (v : bool) (self : GrabCut) : GrabCut :=
  mkGrabCut (original_image self) (image self) (segmented_image self)
    (mask self) (output_path self) (x self) (y self) (w self) (h self)
    (rect self) (drawing self) (background self) v.

(** Where [run] stands: in its first loop, in its second loop, returned, or
    unwound by an exception. *)
Inductive Phase := PhaseA | PhaseB | Exited | Crashed.

(** One recorded call of [cv2.grabCut]: the [initialized] argument of
    [segment], the rectangle and the mask handed over. *)
Record EngineCall := mkCall {
  call_initialized : bool;
  call_rect : option Rect;
  call_mask : Mask
}.

(** The object together with what the session does to the outside: the
    content of the named windows, the engine calls and the files written,
    latest first. *)
Record World := mkWorld {
  obj : GrabCut;
  phase : Phase;
  windows : gmap string Image;
  calls : list EngineCall;
  files : list (string * Image)
}.

Definition set_obj (v : GrabCut) (wd : World) : World :=
  mkWorld v (phase wd) (windows wd) (calls wd) (files wd).

Definition set_phase (v : Phase) (wd : World) : World :=
  mkWorld (obj wd) v (windows wd) (calls wd) (files wd).

(** ** numpy and OpenCV primitives *)

Definition zero_pixel : Pixel := (0, 0, 0).

(** [np.zeros_like(img)] and [np.zeros(img.shape[:2], dtype=np.uint8)]. *)
Definition zeros_like (img : Image) : Image := map (map (fun _ => zero_pixel)) img.
Definition zeros_mask (img : Image) : Mask := map (map (fun _ => 0)) img.

(** A drawing primitive with a coverage test: covered cells that exist take
    [color], all others keep their value, and the shape of the grid is kept
    (OpenCV clips to the grid). *)
Definition paint {A : Type} (covers : Z * Z -> bool) (color : A) (g : Grid A) : Grid A :=
  imap (fun row line =>
          imap (fun col v => if covers (Z.of_nat col, Z.of_nat row) then color else v) line) g.

(** [cv2.circle(g, center, radius, color, -1)]. *)
Definition circle `{Cv2} {A : Type} (g : Grid A) (center : Z * Z) (radius : Z) (color : A) : Grid A :=
  paint (in_circle center radius) color g.

(** [cv2.rectangle(g, pt1, pt2, color, thickness)]. *)
Definition rectangle `{Cv2} {A : Type} (g : Grid A) (pt1 pt2 : Z * Z) (color : A)
    (thickness : Z) : Grid A :=
  paint (in_rectangle pt1 pt2 thickness) color g.

(** [np.where((mask==1) + (mask==3), 255, 0).astype(np.uint8)]. *)
Definition where_foreground (m : Mask) : Mask :=
  map (map (fun v => if (v =? 1) || (v =? 3) then 255 else 0)) m.

Definition pixel_and (p q : Pixel) : Pixel :=
  match p, q with
  | (b1, g1, r1), (b2, g2, r2) => (Z.land b1 b2, Z.land g1 g2, Z.land r1 r2)
  end.

(** [cv2.bitwise_and(src1, src2, mask=m)] into a fresh, zeroed destination. *)
Definition bitwise_and (src1 src2 : Image) (m : Mask) : Image :=
  zip_with (fun lines mline =>
              zip_with (fun pq v => if v =? 0 then zero_pixel else pixel_and pq.1 pq.2)
                       lines mline)
           (zip_with zip src1 src2) m.

(** Lines 117-118 and 149-150 of [run]. *)
Definition update_segmented_image (self : GrabCut) : GrabCut :=
  let mask := where_foreground (mask self) in
  set_segmented_image (bitwise_and (original_image self) (original_image self) mask) self.

(** [cv2.imshow(name, img)]. *)
Definition imshow (name : string) (img : Image) (wd : World) : World :=
  mkWorld (obj wd) (phase wd) (<[name := img]> (windows wd)) (calls wd) (files wd).

(** [cv2.imwrite(path, img)]. *)
Definition imwrite (path : string) (img : Image) (wd : World) : World :=
  mkWorld (obj wd) (phase wd) (windows wd) (calls wd) ((path, img) :: files wd).

(** [s.endswith(suffix)]. *)
Fixpoint starts_with (p s : list ascii) : bool :=
  match p, s with
  | [], _ => true
  | a :: p', b :: s' => Ascii.eqb a b && starts_with p' s'
  | _ :: _, [] => false
  end.

Definition endswith (s suffix : string) : bool :=
  starts_with (rev (list_ascii_of_string suffix)) (rev (list_ascii_of_string s)).

(** ** The mouse callbacks *)

Definition blue : Pixel := (255, 0, 0).
Definition black : Pixel := (0, 0, 0).
Definition white : Pixel := (255, 255, 255).

(** [GrabCut.draw_rectangle]; [mx], [my] are the callback's [x] and [y]. *)
Definition draw_rectangle `{Cv2} (wd : World) (event : MouseEvent) (mx my : Z) : World :=
  let self := obj wd in
  let self :=
    match event with
    | EVENT_LBUTTONDOWN =>
        let self := set_drawing true self in
        let self := set_x mx self in
        set_y my self
    | EVENT_MOUSEMOVE =>
        if drawing self then
          let self := set_image (original_image self) self in
          set_image (rectangle (image self) (x self, y self) (mx, my) blue 2) self
        else self
    | EVENT_LBUTTONUP =>
        let self := set_drawing false self in
        let self := set_w (Z.abs (x self - mx)) self in
        let self := set_h (Z.abs (y self - my)) self in
        let self := set_x (Z.min (x self) mx) self in
        let self := set_y (Z.min (y self) my) self in
        let self := set_image (original_image self) self in
        if (x self =? mx) || (y self =? my) then
          set_image (rectangle (image self) (x self, y self)
                       (x self + w self, y self + h self) blue 2) self
        else
          set_image (rectangle (image self) (x self, y self) (mx, my) blue 2) self
    | EVENT_OTHER => self
    end in
  imshow "Input" (image self) (set_obj self wd).

(** Lines 55-60: the overlay colour and the mask label of the brush. *)
Definition brush (self : GrabCut) : Pixel * Z :=
  if background self then (black, 0) else (white, 1).

(** Lines 64-65, 68-69 and 73-74: the same disc on the overlay and on the
    mask. *)
Definition stamp `{Cv2} (mx my : Z) (color : Pixel) (marker : Z) (self : GrabCut) : GrabCut :=
  let self := set_image (circle (image self) (mx, my) 3 color) self in
  set_mask (circle (mask self) (mx, my) 3 marker) self.

(** [GrabCut.draw_markers]. *)
Definition draw_markers `{Cv2} (wd : World) (event : MouseEvent) (mx my : Z) : World :=
  let self := obj wd in
  let '(color, marker) := brush self in
  let self :=
    match event with
    | EVENT_LBUTTONDOWN =>
        let self := set_drawing true self in
        stamp mx my color marker self
    | EVENT_MOUSEMOVE =>
        if drawing self then stamp mx my color marker self else self
    | EVENT_LBUTTONUP =>
        if drawing self then
          let self := set_drawing false self in
          stamp mx my color marker self
        else self
    | EVENT_OTHER => self
    end in
  imshow "Input" (image self) (set_obj self wd).

(** ** Segmentation *)

(** A call either returns or unwinds with an exception. *)
Inductive outcome :=
| Normal (wd : World)
| Exception (wd : World).

Definition record_call (c : EngineCall) (wd : World) : World :=
  mkWorld (obj wd) (phase wd) (windows wd) (c :: calls wd) (files wd).

(** [GrabCut.segment]; the two GMM models are fresh at every call and are
    not kept. *)
Definition segment `{Cv2} (wd : World) (initialized : bool) : outcome :=
  let self := obj wd in
  let wd := record_call (mkCall initialized (rect self) (mask self)) wd in
  let mode := if initialized then GC_INIT_WITH_MASK else GC_INIT_WITH_RECT in
  match grabCut (original_image self) (mask self) (rect self) mode with
  | Returned m => Normal (set_obj (set_mask m self) wd)
  | Raised m => Exception (set_obj (set_mask m self) wd)
  end.

(** ** The event loops of [run] *)

Definition KEY_ESC : Z := 27.
Definition KEY_ENTER : Z := 13.
Definition KEY_SPACE : Z := 32.
Definition KEY_S : Z := 115.

(** [GrabCut.__init__], past [cv2.imread]. *)
Definition init (img : Image) (output_path : string) : GrabCut :=
  mkGrabCut img img (zeros_like img) (zeros_mask img) output_path
    0 0 0 0 None false true false.

(** Lines 90-92: the window exists and shows the image; the first loop is
    about to wait. *)
Definition start (img : Image) (output_path : string) : World :=
  imshow "Input" img (mkWorld (init img output_path) PhaseA ∅ [] []).

(** Lines 125-126, the top of the second loop. *)
Definition show_both (wd : World) : World :=
  let wd := imshow "Input" (image (obj wd)) wd in
  imshow "Output" (segmented_image (obj wd)) wd.

(** Lines 109-126: Enter was pressed in the first loop. *)
Definition confirm_rectangle `{Cv2} (wd : World) : World :=
  let self := obj wd in
  let self := set_drawing false self in
  let self := set_rect (Some (x self, y self, w self, h self)) self in
  let wd := set_obj self wd in
  let r :=
    if negb (segmentation_initialized self) then
      let self := set_segmentation_initialized true self in
      match segment (set_obj self wd) false with
      | Normal wd => Normal (set_obj (update_segmented_image (obj wd)) wd)
      | Exception wd => Exception wd
      end
    else Normal wd in
  match r with
  | Normal wd => show_both (set_phase PhaseB wd)
  | Exception wd => set_phase Crashed wd
  end.

(** The path handed to [cv2.imwrite], lines 142-145. *)
Definition save_target (output_path : string) : string :=
  if endswith output_path ".png" || endswith output_path ".jpg"
  then output_path
  else "output.jpg".

(** Lines 127-150: one key in the second loop. *)
Definition refine_key `{Cv2} (wd : World) (key : Z) : World :=
  if key =? KEY_ESC then set_phase Exited wd
  else if key =? KEY_SPACE then
    let self := obj wd in
    let self :=
      if background self then set_background false self
      else set_background true self in
    show_both (set_obj self wd)
  else
    let r :=
      if key =? KEY_ENTER then segment wd (segmentation_initialized (obj wd))
      else if key =? KEY_S then
        let self := obj wd in
        Normal (imwrite (save_target (output_path self)) (segmented_image self) wd)
      else Normal wd in
    match r with
    | Normal wd => show_both (set_obj (update_segmented_image (obj wd)) wd)
    | Exception wd => set_phase Crashed wd
    end.

(** One event of the session. In the first loop only Esc and Enter leave
    [cv2.waitKey]'s loop; the installed mouse callback is
    [draw_rectangle], then [draw_markers]. *)
Definition step `{Cv2} (wd : World) (ev : Event) : World :=
  match phase wd with
  | PhaseA =>
      match ev with
      | Mouse event mx my => draw_rectangle wd event mx my
      | Key key =>
          if (key =? KEY_ESC) || (key =? KEY_ENTER) then
            if key =? KEY_ENTER then confirm_rectangle wd
            else set_phase Exited wd
          else wd
      end
  | PhaseB =>
      match ev with
      | Mouse event mx my => draw_markers wd event mx my
      | Key key => refine_key wd key
      end
  | Exited | Crashed => wd
  end.

Definition steps `{Cv2} (wd : World) (evs : list Event) : World :=
  fold_left step evs wd.

(** [GrabCut(img, output_path).run()] over a stream of events. *)
Definition run `{Cv2} (img : Image) (output_path : string) (evs : list Event) : World :=
  steps (start img output_path) evs.

(** ** Derived notions used by the statements *)

(** The preview of the specification: the source colour under a foreground
    label, the zero pixel elsewhere. *)
Definition is_foreground (label : Z) : bool :=
  (label =? GC_FGD) || (label =? GC_PR_FGD).

Definition composite (img : Image) (m : Mask) : Image :=
  bitwise_and img img (where_foreground m).

(** Same number of rows, and row by row the same number of columns. *)
Definition same_shape {A B : Type} (g1 : Grid A) (g2 : Grid B) : Prop :=
  Forall2 (fun l1 l2 => length l1 = length l2) g1 g2.

(** The cell of a grid at column [col], row [row]. *)
Definition cell {A : Type} (g : Grid A) (col row : nat) : option A :=
  g !! row ≫= (fun line => line !! col).

(** The rectangle held by the object. *)
Definition current_rectangle (self : GrabCut) : Rect :=
  (x self, y self, w self, h self).

(** The engine calls made with [initialized = False], oldest first. *)
Definition first_use_calls (wd : World) : list EngineCall :=
  filter (fun c => call_initialized c = false) (rev (calls wd)).

Definition is_pointer_up (ev : Event) : bool :=
  match ev with Mouse EVENT_LBUTTONUP _ _ => true | _ => false end.

Definition is_pointer_down (ev : Event) : bool :=
  match ev with Mouse EVENT_LBUTTONDOWN _ _ => true | _ => false end.

Definition is_pointer_move (ev : Event) : bool :=
  match ev with Mouse EVENT_MOUSEMOVE _ _ => true | _ => false end.

(** The engine call that Enter would make now, if any: the rectangle and the
    mode handed to [cv2.grabCut]. *)
Definition confirm_call (wd : World) : option (option Rect * GrabCutMode) :=
  match phase wd with
  | PhaseA =>
      if segmentation_initialized (obj wd) then None
      else Some (Some (current_rectangle (obj wd)), GC_INIT_WITH_RECT)
  | PhaseB =>
      Some (rect (obj wd),
            if segmentation_initialized (obj wd) then GC_INIT_WITH_MASK
            else GC_INIT_WITH_RECT)
  | Exited | Crashed => None
  end.

(** What holds of a session of [img] as long as it is in its first loop:
    nothing was segmented, written or labelled yet. *)
Definition untouched (img : Image) (wd : World) : Prop :=
  phase wd = PhaseA /\
  segmentation_initialized (obj wd) = false /\
  calls wd = [] /\ files wd = [] /\
  original_image (obj wd) = img /\
  mask (obj wd) = zeros_mask img /\
  segmented_image (obj wd) = zeros_like img /\
  background (obj wd) = true.

(** The keys after which [run] recomputes the preview: Enter in the first
    loop of a session that has not segmented yet, and in the second loop
    every key but Esc and Space. *)
Definition refreshing_key (wd : World) (key : Z) : bool :=
  match phase wd with
  | PhaseA => (key =? KEY_ENTER) && negb (segmentation_initialized (obj wd))
  | PhaseB => negb (key =? KEY_ESC) && negb (key =? KEY_SPACE)
  | Exited | Crashed => false
  end.

(** Grid extents; for a rectangular grid [width] is the common row length. *)
Definition height {A : Type} (g : Grid A) : nat := length g.
Definition width {A : Type} (g : Grid A) : nat := foldr Nat.max 0%nat (map length g).

(** The centre lies outside the grid by more than [radius]. *)
Definition out_of_reach {A : Type} (g : Grid A) (center : Z * Z) (radius : Z) : Prop :=
  center.1 + radius < 0 \/ center.2 + radius < 0 \/
  Z.of_nat (width g) + radius <= center.1 \/
  Z.of_nat (height g) + radius <= center.2.

(** Events that keep the first loop going. *)
Definition stays_in_phaseA (ev : Event) : bool :=
  match ev with
  | Key key => negb ((key =? KEY_ESC) || (key =? KEY_ENTER))
  | Mouse _ _ _ => true
  end.

(** What the drawing primitive promises: nothing is painted farther than
    [radius] from the centre, in either coordinate. *)
Definition circle_within_radius (cv : Cv2) : Prop :=
  forall cx cy radius px py,
    @in_circle cv (cx, cy) radius (px, py) = true ->
    Z.abs (px - cx) <= radius /\ Z.abs (py - cy) <= radius.

(** Every cell holds one of the four labels. *)
Definition valid_labels (m : Mask) : Prop :=
  Forall (Forall (fun v => GC_BGD <= v <= GC_PR_FGD)) m.

(** What is assumed of the engine where a statement needs it: whether it
    returns or raises, the mask it leaves has the shape of the image, and
    holds labels only. *)
Definition engine_keeps_shape (cv : Cv2) : Prop :=
  forall img m r mode,
    same_shape m img ->
    match @grabCut cv img m r mode with
    | Returned m' | Raised m' => same_shape m' img
    end.

Definition engine_valid_labels (cv : Cv2) : Prop :=
  forall img m r mode,
    valid_labels m ->
    match @grabCut cv img m r mode with
    | Returned m' | Raised m' => valid_labels m'
    end.

(** What no event changes in a session of [img] saving to [output_path]:
    the loaded image, the configured path, the shape of the overlay, and
    that the input window shows the overlay. *)
Definition framed (img : Image) (output_path' : string) (wd : World) : Prop :=
  original_image (obj wd) = img /\
  output_path (obj wd) = output_path' /\
  same_shape (image (obj wd)) img /\
  windows wd !! "Input" = Some (image (obj wd)).

(** After the first segmentation: the flag is set, the first loop is over,
    and the rectangle is frozen at [r]. *)
Definition frozen (r : Rect) (wd : World) : Prop :=
  segmentation_initialized (obj wd) = true /\
  phase wd <> PhaseA /\
  rect (obj wd) = Some r /\
  current_rectangle (obj wd) = r.

(** ** A concrete stand-in for OpenCV, to run sessions on *)

Definition disc (center : Z * Z) (radius : Z) (p : Z * Z) : bool :=
  (0 <=? radius) &&
  ((p.1 - center.1) * (p.1 - center.1) + (p.2 - center.2) * (p.2 - center.2)
     <=? radius * radius).

Definition outline (pt1 pt2 : Z * Z) (thickness : Z) (p : Z * Z) : bool :=
  let lo := (Z.min pt1.1 pt2.1, Z.min pt1.2 pt2.2) in
  let hi := (Z.max pt1.1 pt2.1, Z.max pt1.2 pt2.2) in
  (lo.1 <=? p.1) && (p.1 <=? hi.1) && (lo.2 <=? p.2) && (p.2 <=? hi.2) &&
  ((p.1 <? lo.1 + thickness) || (hi.1 - thickness <? p.1) ||
   (p.2 <? lo.2 + thickness) || (hi.2 - thickness <? p.2)).

(** An engine that refuses an empty rectangle, labels the inside of a
    rectangle probable foreground, and otherwise keeps the mask. *)
Definition toy_grabCut (img : Image) (m : Mask) (r : option Rect)
    (mode : GrabCutMode) : grabCut_result :=
  match mode, r with
  | GC_INIT_WITH_RECT, Some (rx, ry, rw, rh) =>
      if (rw =? 0) || (rh =? 0) then Raised (zeros_mask img)
      else Returned
             (imap (fun row line =>
                      imap (fun col _ =>
                              if (rx <=? Z.of_nat col) && (Z.of_nat col <? rx + rw) &&
                                 (ry <=? Z.of_nat row) && (Z.of_nat row <? ry + rh)
                              then GC_PR_FGD else GC_BGD) line) (zeros_mask img))
  | GC_INIT_WITH_RECT, None => Raised m
  | GC_INIT_WITH_MASK, _ => Returned m
  end.

Definition toy_cv2 : Cv2 :=
  {| grabCut := toy_grabCut; in_circle := disc; in_rectangle := outline |}.

(** The same library with an engine that never raises. *)
Definition lenient_cv2 : Cv2 :=
  {| grabCut := fun _ m _ _ => Returned m; in_circle := disc; in_rectangle := outline |}.

(** A 6x6 image whose pixels are all different and non-zero. *)
Definition sample_image : Image :=
  imap (fun row line => imap (fun col _ => (Z.of_nat (10 + 6 * row + col), 7, 200)) line)
       (replicate 6 (replicate 6 zero_pixel)).

(** ** Grids *)

Section grids.
Context {A : Type}.
Implicit Types (g : Grid A) (covers : Z * Z -> bool).

Lemma cell_paint covers (color : A) g col row :
  cell (paint covers color g) col row =
  (fun old => if covers (Z.of_nat col, Z.of_nat row) then color else old)
    <$> cell g col row.
Proof.
  unfold cell, paint. rewrite list_lookup_imap.
  destruct (g !! row) as [line|]; simpl; [|done].
  by rewrite list_lookup_imap.
Qed.

Lemma paint_same_shape covers (color : A) g :
  same_shape (paint covers color g) g.
Proof.
  unfold same_shape, paint. apply Forall2_same_length_lookup.
  split; [by rewrite length_imap|].
  intros i l1 l2 H1 H2. rewrite list_lookup_imap, H2 in H1.
  simpl in H1. injection H1 as <-. by rewrite length_imap.
Qed.

(** A primitive that covers no existing cell leaves the grid as it is. *)
Lemma paint_nothing covers (color : A) g :
  (forall col row, is_Some (cell g col row) ->
                   covers (Z.of_nat col, Z.of_nat row) = false) ->
  paint covers color g = g.
Proof.
  intros Hout. unfold paint. apply list_eq; intros row.
  rewrite list_lookup_imap. destruct (g !! row) as [line|] eqn:Hrow; simpl; [|done].
  f_equal. apply list_eq; intros col. rewrite list_lookup_imap.
  destruct (line !! col) as [v|] eqn:Hcol; simpl; [|done].
  rewrite Hout; [done|]. unfold cell. rewrite Hrow. simpl. by rewrite Hcol.
Qed.

Lemma paint_idempotent covers (color : A) g :
  paint covers color (paint covers color g) = paint covers color g.
Proof.
  unfold paint. apply list_eq; intros row. rewrite !list_lookup_imap.
  destruct (g !! row) as [line|]; simpl; [|done].
  f_equal. apply list_eq; intros col. rewrite !list_lookup_imap.
  destruct (line !! col) as [v|]; simpl; [|done].
  by destruct (covers _).
Qed.
End grids.

Lemma pixel_and_diag (p : Pixel) : pixel_and p p = p.
Proof. destruct p as [[b g] r]. simpl. by rewrite !Z.land_diag. Qed.

Lemma where_foreground_cell (m : Mask) col row :
  cell (where_foreground m) col row =
  (fun l => if is_foreground l then 255 else 0) <$> cell m col row.
Proof.
  unfold cell, where_foreground. rewrite list_lookup_fmap.
  destruct (m !! row) as [line|]; simpl; [|done].
  by rewrite list_lookup_fmap.
Qed.

Lemma bitwise_and_cell (src1 src2 : Image) (m : Mask) col row :
  cell (bitwise_and src1 src2 m) col row =
  p ← cell src1 col row; q ← cell src2 col row; v ← cell m col row;
  Some (if v =? 0 then zero_pixel else pixel_and p q).
Proof.
  unfold cell, bitwise_and. rewrite !lookup_zip_with.
  destruct (src1 !! row) as [l1|]; simpl; [|done].
  destruct (src2 !! row) as [l2|]; simpl; [|by destruct (l1 !! col)].
  destruct (m !! row) as [lm|]; simpl.
  - rewrite !lookup_zip_with.
    destruct (l1 !! col); simpl; [|done].
    destruct (l2 !! col); simpl; [|done].
    by destruct (lm !! col).
  - destruct (l1 !! col); simpl; [|done]. by destruct (l2 !! col).
Qed.

Lemma composite_same_shape (img : Image) (m : Mask) :
  same_shape img m -> same_shape (composite img m) img.
Proof.
  unfold same_shape, composite, bitwise_and, where_foreground.
  intros Hs. apply Forall2_same_length_lookup.
  pose proof (Forall2_length _ _ _ Hs) as Hlen.
  split.
  - rewrite !length_zip_with, length_fmap. lia.
  - intros i l1 l2 H1 H2.
    rewrite !lookup_zip_with, list_lookup_fmap, H2 in H1. simpl in H1.
    destruct (m !! i) as [lm|] eqn:Hm; simpl in H1; [|done].
    injection H1 as <-.
    pose proof (Forall2_lookup_lr _ _ _ _ _ _ Hs H2 Hm) as Hl.
    simpl in Hl.
    rewrite length_zip_with, length_zip, length_fmap. lia.
Qed.

Lemma same_shape_cell {A B : Type} (g1 : Grid A) (g2 : Grid B) col row v :
  same_shape g1 g2 -> cell g1 col row = Some v -> is_Some (cell g2 col row).
Proof.
  unfold same_shape, cell. intros Hs Hc.
  destruct (g1 !! row) as [l1|] eqn:H1; simpl in Hc; [|done].
  destruct (Forall2_lookup_l _ _ _ _ _ Hs H1) as (l2 & H2 & Hlen).
  rewrite H2. simpl. apply lookup_lt_is_Some. rewrite <- Hlen.
  by apply lookup_lt_Some in Hc.
Qed.

(** ** The compositor *)

(** C4: for an image and a mask of the same shape, the preview has the shape
    of the image and holds, at every pixel, the source colour when the mask
    cell is definite or probable foreground and the zero pixel otherwise; the
    buffer the session stores is this function of (original image, mask). *)
Theorem composite_pixelwise (img : Image) (m : Mask) :
  same_shape img m ->
  same_shape (composite img m) img /\
  (forall col row p,
      cell img col row = Some p ->
      exists label,
        cell m col row = Some label /\
        cell (composite img m) col row =
          Some (if is_foreground label then p else zero_pixel)) /\
  (forall self : GrabCut,
      original_image self = img -> mask self = m ->
      segmented_image (update_segmented_image self) = composite img m).
Proof.
  intros Hs. split; [by apply composite_same_shape|]. split.
  - intros col row p Hp.
    destruct (same_shape_cell _ _ _ _ _ Hs Hp) as [label Hl].
    exists label. split; [done|].
    unfold composite. rewrite bitwise_and_cell, where_foreground_cell, Hp, Hl.
    simpl. rewrite pixel_and_diag. by destruct (is_foreground label).
  - by intros self <- <-.
Qed.

Lemma composite_pixelwise_witness :
  let m := paint (disc (2, 3) 1) GC_FGD (zeros_mask sample_image) in
  same_shape sample_image m /\
  cell (composite sample_image m) 2 3 = Some (30, 7, 200) /\
  cell (composite sample_image m) 0 0 = Some zero_pixel.
Proof.
  intros m.
  assert (Hs : same_shape sample_image m).
  { unfold same_shape. vm_compute. repeat constructor. }
  split; [exact Hs|].
  destruct (composite_pixelwise _ _ Hs) as (_ & Hcell & _).
  split.
  - destruct (Hcell 2%nat 3%nat (30, 7, 200) eq_refl) as (label & Hl & ->).
    vm_compute in Hl. by injection Hl as <-.
  - destruct (Hcell 0%nat 0%nat (10, 7, 200) eq_refl) as (label & Hl & ->).
    vm_compute in Hl. by injection Hl as <-.
Defined.

(** ** Stepping the session *)

Lemma steps_app `{Cv2} wd evs1 evs2 :
  steps wd (evs1 ++ evs2) = steps (steps wd evs1) evs2.
Proof. apply fold_left_app. Qed.

Lemma step_mouse_phaseA `{Cv2} wd event mx my :
  phase wd = PhaseA -> step wd (Mouse event mx my) = draw_rectangle wd event mx my.
Proof. intros Hp. unfold step. by rewrite Hp. Qed.

Lemma step_mouse_phaseB `{Cv2} wd event mx my :
  phase wd = PhaseB -> step wd (Mouse event mx my) = draw_markers wd event mx my.
Proof. intros Hp. unfold step. by rewrite Hp. Qed.

Lemma step_key_phaseB `{Cv2} wd key :
  phase wd = PhaseB -> step wd (Key key) = refine_key wd key.
Proof. intros Hp. unfold step. by rewrite Hp. Qed.

Lemma step_enter_phaseA `{Cv2} wd :
  phase wd = PhaseA -> step wd (Key KEY_ENTER) = confirm_rectangle wd.
Proof. intros Hp. unfold step. by rewrite Hp. Qed.

Lemma draw_rectangle_phase `{Cv2} wd event mx my :
  phase (draw_rectangle wd event mx my) = phase wd.
Proof. reflexivity. Qed.

Lemma draw_markers_phase `{Cv2} wd event mx my :
  phase (draw_markers wd event mx my) = phase wd.
Proof. unfold draw_markers. by destruct (brush (obj wd)). Qed.

(** Once [run] has returned or was unwound, no event is looked at. *)
Lemma steps_finished `{Cv2} wd evs :
  phase wd = Exited \/ phase wd = Crashed -> steps wd evs = wd.
Proof.
  intros Hp. induction evs as [|ev evs IH]; [done|].
  change (steps wd (ev :: evs)) with (steps (step wd ev) evs).
  assert (step wd ev = wd) as ->; [|done].
  unfold step. by destruct Hp as [-> | ->].
Qed.

(** ** Phase A: the rectangle *)

(** Pointer moves in the first loop redraw the overlay and nothing else. *)
Lemma moves_keep_anchor `{Cv2} wd moves :
  phase wd = PhaseA ->
  Forall (fun ev => is_pointer_move ev = true) moves ->
  phase (steps wd moves) = PhaseA /\
  x (obj (steps wd moves)) = x (obj wd) /\
  y (obj (steps wd moves)) = y (obj wd) /\
  w (obj (steps wd moves)) = w (obj wd) /\
  h (obj (steps wd moves)) = h (obj wd).
Proof.
  intros Hp Hm. revert wd Hp.
  induction Hm as [|ev moves Hev _ IH]; intros wd Hp; [done|].
  destruct ev as [[] mx my|]; try discriminate Hev.
  change (steps wd (Mouse EVENT_MOUSEMOVE mx my :: moves))
    with (steps (step wd (Mouse EVENT_MOUSEMOVE mx my)) moves).
  rewrite step_mouse_phaseA by done.
  destruct (IH (draw_rectangle wd EVENT_MOUSEMOVE mx my)) as (-> & -> & -> & -> & ->);
    [done|].
  unfold draw_rectangle. simpl. by destruct (drawing (obj wd)).
Qed.

(** C6: a drag of the first loop - pointer-down at (ax, ay), any pointer
    moves, pointer-up at (ux, uy) - leaves in the object the rectangle with
    x = min(ax, ux), y = min(ay, uy), w = |ax - ux|, h = |ay - uy|, and the
    drag is over. *)
Theorem drag_finalizes_rectangle `{Cv2} (wd : World) (ax ay ux uy : Z)
    (moves : list Event) :
  phase wd = PhaseA ->
  Forall (fun ev => is_pointer_move ev = true) moves ->
  let wd' := steps wd (Mouse EVENT_LBUTTONDOWN ax ay :: moves ++
                       [Mouse EVENT_LBUTTONUP ux uy]) in
  x (obj wd') = Z.min ax ux /\
  y (obj wd') = Z.min ay uy /\
  w (obj wd') = Z.abs (ax - ux) /\
  h (obj wd') = Z.abs (ay - uy) /\
  drawing (obj wd') = false /\
  phase wd' = PhaseA.
Proof.
  intros Hp Hm wd'. subst wd'.
  change (steps wd (Mouse EVENT_LBUTTONDOWN ax ay :: moves ++ [Mouse EVENT_LBUTTONUP ux uy]))
    with (steps (step wd (Mouse EVENT_LBUTTONDOWN ax ay))
                (moves ++ [Mouse EVENT_LBUTTONUP ux uy])).
  rewrite steps_app, step_mouse_phaseA by done.
  set (wd1 := draw_rectangle wd EVENT_LBUTTONDOWN ax ay).
  destruct (moves_keep_anchor wd1 moves) as (Hp2 & Hx & Hy & _); [done|done|].
  set (wd2 := steps wd1 moves) in *.
  change (steps wd2 [Mouse EVENT_LBUTTONUP ux uy])
    with (step wd2 (Mouse EVENT_LBUTTONUP ux uy)).
  rewrite step_mouse_phaseA by done.
  assert (Hax : x (obj wd2) = ax) by (by rewrite Hx).
  assert (Hay : y (obj wd2) = ay) by (by rewrite Hy).
  unfold draw_rectangle. simpl. rewrite Hax, Hay.
  by destruct ((Z.min ax ux =? ux) || (Z.min ay uy =? uy)).
Qed.

Lemma drag_finalizes_rectangle_witness :
  let wd' := @steps toy_cv2 (start sample_image "segmented.png")
               [Mouse EVENT_LBUTTONDOWN 4 1; Mouse EVENT_MOUSEMOVE 3 2;
                Mouse EVENT_MOUSEMOVE 2 4; Mouse EVENT_LBUTTONUP 1 5] in
  current_rectangle (obj wd') = (1, 1, 3, 4).
Proof.
  intros wd'.
  destruct (@drag_finalizes_rectangle toy_cv2 (start sample_image "segmented.png")
              4 1 1 5 [Mouse EVENT_MOUSEMOVE 3 2; Mouse EVENT_MOUSEMOVE 2 4])
    as (Hx & Hy & Hw & Hh & _).
  - reflexivity.
  - repeat constructor.
  - unfold current_rectangle. subst wd'. simpl app in *.
    by rewrite Hx, Hy, Hw, Hh.
Defined.

(** ** Saving *)

Lemma starts_with_spec (p s : list ascii) :
  starts_with p s = true <-> exists t, s = p ++ t.
Proof.
  revert s. induction p as [|a p IH]; intros s; simpl.
  - split; [by exists s | done].
  - destruct s as [|b s].
    + split; [done | by intros [t Ht]].
    + rewrite andb_true_iff, Ascii.eqb_eq, IH. split.
      * intros [-> [t ->]]. by exists t.
      * intros [t Ht]. injection Ht as -> ->. split; [done | by exists t].
Qed.

Lemma list_ascii_of_string_append (s1 s2 : string) :
  list_ascii_of_string (s1 +:+ s2) =
  list_ascii_of_string s1 ++ list_ascii_of_string s2.
Proof. induction s1 as [|a s1 IH]; simpl; [done | by rewrite IH]. Qed.

(** [endswith] is Python's: the string is some stem followed by the suffix. *)
Lemma endswith_spec (s suffix : string) :
  endswith s suffix = true <-> exists stem, s = stem +:+ suffix.
Proof.
  unfold endswith. rewrite starts_with_spec. split.
  - intros [t Ht]. exists (string_of_list_ascii (rev t)).
    rewrite <- (string_of_list_ascii_of_string s).
    rewrite <- (string_of_list_ascii_of_string (_ +:+ _)).
    f_equal. rewrite list_ascii_of_string_append, list_ascii_of_string_of_list_ascii.
    rewrite <- (rev_involutive (list_ascii_of_string s)), Ht, rev_app_distr.
    by rewrite rev_involutive.
  - intros [stem ->]. exists (rev (list_ascii_of_string stem)).
    by rewrite list_ascii_of_string_append, rev_app_distr.
Qed.

Lemma save_target_kept (path : string) :
  save_target path = path <->
  exists stem, path = stem +:+ ".png" \/ path = stem +:+ ".jpg".
Proof.
  unfold save_target.
  destruct (endswith path ".png") eqn:Hpng; simpl.
  - split; [intros _ | done].
    apply endswith_spec in Hpng as [stem ->]. exists stem. by left.
  - destruct (endswith path ".jpg") eqn:Hjpg.
    + split; [intros _ | done].
      apply endswith_spec in Hjpg as [stem ->]. exists stem. by right.
    + split.
      * intros <-. discriminate Hjpg.
      * intros [stem [-> | ->]].
        -- assert (endswith (stem +:+ ".png") ".png" = true)
             by (apply endswith_spec; by exists stem). congruence.
        -- assert (endswith (stem +:+ ".jpg") ".jpg" = true)
             by (apply endswith_spec; by exists stem). congruence.
Qed.

(** C7: in the second loop the save key writes the current preview to the
    configured path exactly when that path ends in one of the recognized
    extensions (.png, .jpg); otherwise it writes to the fixed name
    output.jpg, without any error: the session stays in its loop. With
    out.txt configured the file written is output.jpg. *)
Theorem save_writes_configured_or_default `{Cv2} (wd : World) :
  phase wd = PhaseB ->
  let path := output_path (obj wd) in
  let wd' := step wd (Key KEY_S) in
  files wd' = (save_target path, segmented_image (obj wd)) :: files wd /\
  phase wd' = PhaseB /\
  (save_target path = path <->
   exists stem, path = stem +:+ ".png" \/ path = stem +:+ ".jpg") /\
  (save_target path <> path -> save_target path = "output.jpg") /\
  save_target "out.txt" = "output.jpg".
Proof.
  intros Hp path wd'. subst wd'. rewrite step_key_phaseB by done.
  split; [done|]. split; [by rewrite <- Hp|].
  split; [apply save_target_kept|]. split; [|done].
  unfold save_target.
  by destruct (endswith path ".png" || endswith path ".jpg").
Qed.

Lemma save_writes_configured_or_default_witness :
  let wd := @run lenient_cv2 sample_image "out.txt" [Key KEY_ENTER] in
  phase wd = PhaseB /\
  files (@step lenient_cv2 wd (Key KEY_S)) =
    [("output.jpg", segmented_image (obj wd))].
Proof.
  intros wd. split; [reflexivity|].
  destruct (@save_writes_configured_or_default lenient_cv2 wd eq_refl)
    as (Hfiles & _).
  exact Hfiles.
Defined.

(** ** Phase B: the brush *)

Lemma row_within_width {A : Type} (g : Grid A) (row : nat) (line : list A) :
  g !! row = Some line -> (length line <= width g)%nat.
Proof.
  unfold width. revert row. induction g as [|l g IH]; intros row Hrow; [done|].
  destruct row as [|row]; simpl in *.
  - injection Hrow as ->. lia.
  - specialize (IH row Hrow). lia.
Qed.

Lemma cell_within_extents {A : Type} (g : Grid A) (col row : nat) :
  is_Some (cell g col row) -> (col < width g)%nat /\ (row < height g)%nat.
Proof.
  unfold cell, height. intros [v Hv].
  destruct (g !! row) as [line|] eqn:Hrow; simpl in Hv; [|done].
  split.
  - apply lookup_lt_Some in Hv. apply row_within_width in Hrow. lia.
  - by apply lookup_lt_Some in Hrow.
Qed.

(** A disc whose centre is out of reach covers no cell of the grid. *)
Lemma circle_out_of_reach `{cv : Cv2} {A : Type} (g : Grid A) center radius (color : A) :
  circle_within_radius cv ->
  out_of_reach g center radius ->
  circle g center radius color = g.
Proof.
  intros Hcv Hfar. destruct center as [cx cy].
  unfold circle. apply paint_nothing. intros col row Hcell.
  apply cell_within_extents in Hcell as [Hcol Hrow].
  destruct (in_circle (cx, cy) radius (Z.of_nat col, Z.of_nat row)) eqn:Hin; [|done].
  apply Hcv in Hin. unfold out_of_reach in Hfar. simpl in Hfar. lia.
Qed.

(** What a callback of the second loop can do to the mask. *)
Lemma draw_markers_mask `{Cv2} wd event mx my :
  mask (obj (draw_markers wd event mx my)) = mask (obj wd) \/
  mask (obj (draw_markers wd event mx my)) =
    circle (mask (obj wd)) (mx, my) 3 (brush (obj wd)).2.
Proof.
  unfold draw_markers. destruct (brush (obj wd)) as [color marker].
  destruct event; simpl; try destruct (drawing (obj wd)); simpl; auto.
Qed.

Lemma disc_within_radius : circle_within_radius toy_cv2.
Proof.
  intros cx cy radius px py. simpl. unfold disc. simpl.
  intros [Hr%Z.leb_le Hin%Z.leb_le]%andb_true_iff.
  pose proof (Z.square_nonneg (px - cx)) as Ha.
  pose proof (Z.square_nonneg (py - cy)) as Hb.
  split; apply Z.abs_le; split; nia.
Qed.

(** C8: the toggle key of the second loop flips the brush flag and nothing
    else in the object - the mask and the overlay are cell for cell what
    they were, no engine call and no file is made - and the next stroke
    stamps the flipped label, touching no cell outside its own disc. *)
Theorem toggle_changes_only_brush `{Cv2} (wd : World) :
  phase wd = PhaseB ->
  let wd' := step wd (Key KEY_SPACE) in
  obj wd' = set_background (negb (background (obj wd))) (obj wd) /\
  mask (obj wd') = mask (obj wd) /\
  image (obj wd') = image (obj wd) /\
  phase wd' = PhaseB /\ calls wd' = calls wd /\ files wd' = files wd /\
  forall mx my,
    let wd'' := step wd' (Mouse EVENT_LBUTTONDOWN mx my) in
    let label := if background (obj wd) then GC_FGD else GC_BGD in
    mask (obj wd'') = circle (mask (obj wd)) (mx, my) 3 label /\
    forall col row,
      in_circle (mx, my) 3 (Z.of_nat col, Z.of_nat row) = false ->
      cell (mask (obj wd'')) col row = cell (mask (obj wd)) col row.
Proof.
  intros Hp wd'. subst wd'. rewrite step_key_phaseB by done.
  unfold refine_key. simpl.
  assert (Hobj : (if background (obj wd) then set_background false (obj wd)
                  else set_background true (obj wd))
                 = set_background (negb (background (obj wd))) (obj wd))
    by (by destruct (background (obj wd))).
  rewrite Hobj. repeat (split; [done|]).
  intros mx my.
  match goal with |- ?lhs = _ /\ _ => set (m'' := lhs) end.
  assert (Hm : m'' = circle (mask (obj wd)) (mx, my) 3
                       (if background (obj wd) then GC_FGD else GC_BGD)).
  { subst m''. rewrite step_mouse_phaseB by done.
    unfold draw_markers, brush. simpl. by destruct (background (obj wd)). }
  split; [done|].
  intros col row Hout. rewrite Hm. unfold circle.
  rewrite cell_paint, Hout. by destruct (cell (mask (obj wd)) col row).
Qed.

Lemma toggle_changes_only_brush_witness :
  let wd := @run toy_cv2 sample_image "segmented.png"
              [Mouse EVENT_LBUTTONDOWN 1 1; Mouse EVENT_LBUTTONUP 4 4; Key KEY_ENTER;
               Key KEY_SPACE; Mouse EVENT_LBUTTONDOWN 0 0; Mouse EVENT_LBUTTONUP 0 0] in
  phase wd = PhaseB /\
  cell (mask (obj wd)) 0 0 = Some GC_FGD /\
  mask (obj (@step toy_cv2 wd (Key KEY_SPACE))) = mask (obj wd) /\
  cell (mask (obj (@steps toy_cv2 wd [Key KEY_SPACE; Mouse EVENT_LBUTTONDOWN 5 5])))
       0 0 = Some GC_FGD.
Proof.
  intros wd.
  destruct (@toggle_changes_only_brush toy_cv2 wd eq_refl)
    as (_ & Hmask & _ & _ & _ & _ & Hnext).
  split; [reflexivity|]. split; [reflexivity|]. split; [exact Hmask|].
  destruct (Hnext 5 5) as [_ Hcells].
  exact (Hcells 0%nat 0%nat eq_refl).
Defined.

(** C9: a stamp of the second loop never fails and never changes the shape
    of the mask; cells outside the disc keep their label and, on a
    pointer-down, the cells of the image inside the disc take the brush
    label, so a disc that sticks out of the image is clipped to it; and when
    the centre lies outside the image by more than the radius, the whole
    mask is as before. *)
Theorem far_stamp_leaves_mask `{cv : Cv2} (wd : World) (event : MouseEvent)
    (mx my : Z) :
  circle_within_radius cv ->
  phase wd = PhaseB ->
  let wd' := step wd (Mouse event mx my) in
  phase wd' = PhaseB /\
  same_shape (mask (obj wd')) (mask (obj wd)) /\
  (forall col row,
      in_circle (mx, my) 3 (Z.of_nat col, Z.of_nat row) = false ->
      cell (mask (obj wd')) col row = cell (mask (obj wd)) col row) /\
  (event = EVENT_LBUTTONDOWN ->
   forall col row,
     in_circle (mx, my) 3 (Z.of_nat col, Z.of_nat row) = true ->
     is_Some (cell (mask (obj wd)) col row) ->
     cell (mask (obj wd')) col row = Some (brush (obj wd)).2) /\
  (out_of_reach (mask (obj wd)) (mx, my) 3 -> mask (obj wd') = mask (obj wd)).
Proof.
  intros Hcv Hp wd'. subst wd'. rewrite step_mouse_phaseB by done.
  split; [by rewrite draw_markers_phase|].
  assert (Hdown : event = EVENT_LBUTTONDOWN ->
            forall col row,
              in_circle (mx, my) 3 (Z.of_nat col, Z.of_nat row) = true ->
              is_Some (cell (mask (obj wd)) col row) ->
              cell (mask (obj (draw_markers wd event mx my))) col row =
                Some (brush (obj wd)).2).
  { intros -> col row Hin [v Hv]. unfold draw_markers.
    destruct (brush (obj wd)) as [color marker]. simpl.
    unfold circle. by rewrite cell_paint, Hin, Hv. }
  destruct (draw_markers_mask wd event mx my) as [Hsame | Hcirc].
  - rewrite Hsame in *. split.
    { unfold same_shape. apply Forall2_same_length_lookup.
      split; [done|]. intros i l1 l2 H1 H2. congruence. }
    done.
  - rewrite Hcirc in *. split; [apply paint_same_shape|]. split.
    + intros col row Hout. unfold circle. rewrite cell_paint, Hout.
      by destruct (cell (mask (obj wd)) col row).
    + split; [done|]. intros Hfar. by apply circle_out_of_reach.
Qed.

Lemma far_stamp_leaves_mask_witness :
  let wd := @run toy_cv2 sample_image "segmented.png"
              [Mouse EVENT_LBUTTONDOWN 1 1; Mouse EVENT_LBUTTONUP 4 4; Key KEY_ENTER] in
  mask (obj (@step toy_cv2 wd (Mouse EVENT_LBUTTONDOWN 9 2))) = mask (obj wd) /\
  cell (mask (obj (@step toy_cv2 wd (Mouse EVENT_LBUTTONDOWN 7 2)))) 1 1 =
    Some GC_PR_FGD.
Proof.
  intros wd. split.
  - destruct (@far_stamp_leaves_mask toy_cv2 wd EVENT_LBUTTONDOWN 9 2
                disc_within_radius eq_refl) as (_ & _ & _ & _ & Hfar).
    apply Hfar. unfold out_of_reach. vm_compute. right. right. left. discriminate.
  - destruct (@far_stamp_leaves_mask toy_cv2 wd EVENT_LBUTTONDOWN 7 2
                disc_within_radius eq_refl) as (_ & _ & Hcells & _ & _).
    rewrite (Hcells 1%nat 1%nat eq_refl). reflexivity.
Defined.

(** C10: in the second loop a pointer-up that arrives while a stroke is
    being painted stamps one more disc of radius 3, in the label and colour
    of the current brush, at the release point - on the mask and on the
    overlay - and ends the stroke; nothing else in the object changes. The
    callback clears [drawing] and then stamps; the outcome is the one of
    stamping and then clearing. *)
Theorem pointer_up_stamps_release_point `{Cv2} (wd : World) (mx my : Z) :
  phase wd = PhaseB ->
  drawing (obj wd) = true ->
  let wd' := step wd (Mouse EVENT_LBUTTONUP mx my) in
  let label := if background (obj wd) then GC_BGD else GC_FGD in
  let color := if background (obj wd) then black else white in
  mask (obj wd') = circle (mask (obj wd)) (mx, my) 3 label /\
  image (obj wd') = circle (image (obj wd)) (mx, my) 3 color /\
  drawing (obj wd') = false /\
  obj wd' = set_drawing false (stamp mx my color label (obj wd)) /\
  phase wd' = PhaseB.
Proof.
  intros Hp Hd wd' label color. subst wd' label color.
  rewrite step_mouse_phaseB by done.
  unfold draw_markers, brush. rewrite Hd.
  by destruct (background (obj wd)).
Qed.

Lemma pointer_up_stamps_release_point_witness :
  let wd := @run toy_cv2 sample_image "segmented.png"
              [Mouse EVENT_LBUTTONDOWN 1 1; Mouse EVENT_LBUTTONUP 3 3; Key KEY_ENTER;
               Mouse EVENT_LBUTTONDOWN 5 5] in
  drawing (obj wd) = true /\
  cell (mask (obj wd)) 1 1 = Some GC_PR_FGD /\
  cell (mask (obj (@step toy_cv2 wd (Mouse EVENT_LBUTTONUP 1 1)))) 1 1 = Some GC_BGD /\
  drawing (obj (@step toy_cv2 wd (Mouse EVENT_LBUTTONUP 1 1))) = false.
Proof.
  intros wd.
  destruct (@pointer_up_stamps_release_point toy_cv2 wd 1 1 eq_refl eq_refl)
    as (Hmask & _ & Hdrawing & _).
  split; [reflexivity|]. split; [reflexivity|]. split; [|exact Hdrawing].
  rewrite Hmask. reflexivity.
Defined.

(** ** Leaving Phase A *)

Lemma draw_rectangle_untouched `{Cv2} img wd event mx my :
  untouched img wd -> untouched img (draw_rectangle wd event mx my).
Proof.
  unfold untouched, draw_rectangle.
  intros (Hp & Hi & Hc & Hf & Ho & Hm & Hs & Hb).
  destruct event; simpl.
  - by destruct (drawing (obj wd)).
  - done.
  - by destruct ((Z.min (x (obj wd)) mx =? mx) || (Z.min (y (obj wd)) my =? my)).
  - done.
Qed.

Lemma steps_untouched `{Cv2} img wd evs :
  untouched img wd ->
  Forall (fun ev => stays_in_phaseA ev = true) evs ->
  untouched img (steps wd evs).
Proof.
  intros Hu Hevs. revert wd Hu.
  induction Hevs as [|ev evs Hev _ IH]; intros wd Hu; [done|].
  change (steps wd (ev :: evs)) with (steps (step wd ev) evs).
  apply IH. pose proof Hu as (Hp & _).
  destruct ev as [event mx my|key].
  - rewrite step_mouse_phaseA by done. by apply draw_rectangle_untouched.
  - unfold step. rewrite Hp. simpl in Hev.
    by destruct ((key =? KEY_ESC) || (key =? KEY_ENTER)).
Qed.

Lemma start_untouched img output_path : untouched img (start img output_path).
Proof. by unfold untouched. Qed.

(** Enter in the first loop of a session that has not segmented yet: one
    engine call on the rectangle held at that moment, then the second loop
    or the engine's exception. *)
Lemma confirm_untouched `{Cv2} img wd :
  untouched img wd ->
  let wd' := step wd (Key KEY_ENTER) in
  let r := Some (current_rectangle (obj wd)) in
  calls wd' = [mkCall false r (zeros_mask img)] /\
  rect (obj wd') = r /\
  segmentation_initialized (obj wd') = true /\
  match grabCut img (zeros_mask img) r GC_INIT_WITH_RECT with
  | Returned m =>
      phase wd' = PhaseB /\ mask (obj wd') = m /\
      segmented_image (obj wd') = composite img m /\
      windows wd' !! "Output" = Some (composite img m)
  | Raised m => phase wd' = Crashed /\ mask (obj wd') = m
  end.
Proof.
  intros (Hp & Hi & Hc & Hf & Ho & Hm & Hs & Hb) wd' r. subst wd' r.
  rewrite step_enter_phaseA by done.
  unfold confirm_rectangle, segment, current_rectangle. simpl.
  rewrite Hi, Ho, Hm. simpl.
  destruct (grabCut img (zeros_mask img) _ GC_INIT_WITH_RECT) as [m|m];
    simpl; rewrite ?Hc, ?Ho.
  - repeat (split; [done|]). by rewrite lookup_insert_eq.
  - done.
Qed.

Lemma no_pointer_up_no_extent `{Cv2} wd evs :
  phase wd = PhaseA -> w (obj wd) = 0 -> h (obj wd) = 0 ->
  Forall (fun ev => stays_in_phaseA ev = true) evs ->
  Forall (fun ev => is_pointer_up ev = false) evs ->
  w (obj (steps wd evs)) = 0 /\ h (obj (steps wd evs)) = 0.
Proof.
  intros Hp Hw Hh Hstay. revert wd Hp Hw Hh.
  induction Hstay as [|ev evs Hev _ IH]; intros wd Hp Hw Hh Hup; [done|].
  apply Forall_cons in Hup as [Hup1 Hup].
  change (steps wd (ev :: evs)) with (steps (step wd ev) evs).
  destruct ev as [event mx my|key].
  - rewrite step_mouse_phaseA by done.
    apply IH; [done| | |done]; destruct event; try discriminate Hup1;
      unfold draw_rectangle; simpl; by destruct (drawing (obj wd)).
  - assert (step wd (Key key) = wd) as ->; [|by apply IH].
    unfold step. rewrite Hp. simpl in Hev.
    by destruct ((key =? KEY_ESC) || (key =? KEY_ENTER)).
Qed.

(** C2, counterexample: with no pointer-up at all, Enter still ends the
    first loop - into the second loop when the engine accepts the empty
    rectangle, into the engine's exception when it does not. *)
Lemma confirm_without_pointer_up_exits :
  let evs := [Mouse EVENT_LBUTTONDOWN 2 2; Mouse EVENT_MOUSEMOVE 3 3] in
  Forall (fun ev => is_pointer_up ev = false) evs /\
  phase (@run lenient_cv2 sample_image "segmented.png" evs) = PhaseA /\
  phase (@run lenient_cv2 sample_image "segmented.png" (evs ++ [Key KEY_ENTER]))
    = PhaseB /\
  phase (@run toy_cv2 sample_image "segmented.png" (evs ++ [Key KEY_ENTER]))
    = Crashed /\
  ~ (forall (cv : Cv2) img output_path evs,
        Forall (fun ev => stays_in_phaseA ev = true) evs ->
        Forall (fun ev => is_pointer_up ev = false) evs ->
        phase (@run cv img output_path (evs ++ [Key KEY_ENTER])) = PhaseA).
Proof.
  intros evs. split; [by repeat constructor|].
  do 3 (split; [reflexivity|]).
  intros Hclaim.
  specialize (Hclaim lenient_cv2 sample_image "segmented.png"%string []
                (Forall_nil_2 _) (Forall_nil_2 _)).
  discriminate Hclaim.
Qed.

(** C2, as the program has it: whatever happened in the first loop, with or without a
    pointer-up, Enter ends it: the rectangle held at that moment is frozen
    and handed to the engine, and the session is in its second loop exactly
    when the engine returns, and unwound by the engine's exception
    otherwise. Without any pointer-up that rectangle has no extent. *)
Theorem confirm_always_leaves_phaseA `{Cv2} (img : Image) (output_path : string)
    (evs : list Event) :
  Forall (fun ev => stays_in_phaseA ev = true) evs ->
  let wd := run img output_path evs in
  let wd' := step wd (Key KEY_ENTER) in
  let r := Some (current_rectangle (obj wd)) in
  phase wd = PhaseA /\
  (phase wd' = PhaseB \/ phase wd' = Crashed) /\
  rect (obj wd') = r /\
  (phase wd' = PhaseB <->
   exists m, grabCut img (zeros_mask img) r GC_INIT_WITH_RECT = Returned m) /\
  (Forall (fun ev => is_pointer_up ev = false) evs ->
   w (obj wd) = 0 /\ h (obj wd) = 0).
Proof.
  intros Hstay wd wd' r.
  assert (Hu : untouched img wd)
    by (apply steps_untouched; [apply start_untouched | done]).
  pose proof (confirm_untouched img wd Hu) as (_ & Hrect & _ & Hres).
  fold wd' r in Hrect, Hres.
  split; [apply Hu|].
  destruct (grabCut img (zeros_mask img) r GC_INIT_WITH_RECT) as [m|m] eqn:Hg.
  - destruct Hres as (Hp' & _). split; [by left|]. split; [done|].
    split; [split; [by exists m | done]|].
    intros Hup. by apply no_pointer_up_no_extent.
  - destruct Hres as (Hp' & _). split; [by right|]. split; [done|].
    split; [split; [congruence | by intros [m' Hm']]|].
    intros Hup. by apply no_pointer_up_no_extent.
Qed.

Lemma confirm_always_leaves_phaseA_witness :
  let wd := @run lenient_cv2 sample_image "segmented.png"
              [Mouse EVENT_LBUTTONDOWN 2 2; Key KEY_S] in
  phase wd = PhaseA /\
  rect (obj (@step lenient_cv2 wd (Key KEY_ENTER))) = Some (2, 2, 0, 0).
Proof.
  intros wd.
  destruct (@confirm_always_leaves_phaseA lenient_cv2 sample_image "segmented.png"
              [Mouse EVENT_LBUTTONDOWN 2 2; Key KEY_S])
    as (Hp & _ & Hrect & _).
  - by repeat constructor.
  - split; [exact Hp | exact Hrect].
Defined.

(** ** Engine failure *)

(** C3, counterexample: a click finalizes a rectangle of zero area; on
    Enter the engine raises, and the session is unwound instead of going on:
    the events that follow are never looked at and nothing is saved. *)
Lemma engine_failure_unwinds_session :
  let evs := [Mouse EVENT_LBUTTONDOWN 2 2; Mouse EVENT_LBUTTONUP 2 2] in
  let wd := @run toy_cv2 sample_image "segmented.png" evs in
  let later := [Mouse EVENT_LBUTTONDOWN 1 1; Mouse EVENT_LBUTTONUP 4 4;
                Key KEY_ENTER; Key KEY_S] in
  phase wd = PhaseA /\
  confirm_call wd = Some (Some (2, 2, 0, 0), GC_INIT_WITH_RECT) /\
  (exists m, toy_grabCut (original_image (obj wd)) (mask (obj wd))
               (Some (2, 2, 0, 0)) GC_INIT_WITH_RECT = Raised m) /\
  phase (@step toy_cv2 wd (Key KEY_ENTER)) = Crashed /\
  @steps toy_cv2 wd (Key KEY_ENTER :: later) = @step toy_cv2 wd (Key KEY_ENTER) /\
  files (@steps toy_cv2 wd (Key KEY_ENTER :: later)) = [] /\
  ~ (forall (cv : Cv2) wd r mode m,
        confirm_call wd = Some (r, mode) ->
        @grabCut cv (original_image (obj wd)) (mask (obj wd)) r mode = Raised m ->
        phase (@step cv wd (Key KEY_ENTER)) = phase wd /\
        mask (obj (@step cv wd (Key KEY_ENTER))) = mask (obj wd)).
Proof.
  intros evs wd later.
  do 2 (split; [vm_compute; reflexivity|]).
  split; [eexists; vm_compute; reflexivity|].
  do 3 (split; [vm_compute; reflexivity|]).
  intros Hclaim.
  destruct (Hclaim toy_cv2 wd (Some (2, 2, 0, 0)) GC_INIT_WITH_RECT
              (zeros_mask sample_image) eq_refl eq_refl) as [Hphase _].
  discriminate Hphase.
Qed.

(** C3, as the program has it: when the engine raises on the call that Enter makes - the
    first segmentation on leaving the first loop, or a refinement in the
    second loop - nothing catches the exception: [run] is unwound, the mask
    is what the engine left in it, the preview is not recomputed, nothing is
    shown or written, and no later event is processed. *)
Theorem engine_failure_ends_session `{Cv2} (wd : World) (r : option Rect)
    (mode : GrabCutMode) (m : list (list Z)) :
  confirm_call wd = Some (r, mode) ->
  grabCut (original_image (obj wd)) (mask (obj wd)) r mode = Raised m ->
  let wd' := step wd (Key KEY_ENTER) in
  phase wd' = Crashed /\
  mask (obj wd') = m /\
  segmented_image (obj wd') = segmented_image (obj wd) /\
  windows wd' = windows wd /\
  files wd' = files wd /\
  forall evs, steps wd' evs = wd'.
Proof.
  intros Hcall Hraise wd'.
  assert (Hgoal : phase wd' = Crashed /\ mask (obj wd') = m /\
                  segmented_image (obj wd') = segmented_image (obj wd) /\
                  windows wd' = windows wd /\ files wd' = files wd).
  { subst wd'. unfold confirm_call in Hcall.
    destruct (phase wd) eqn:Hp; try discriminate Hcall.
    - destruct (segmentation_initialized (obj wd)) eqn:Hi; [discriminate Hcall|].
      injection Hcall as <- <-.
      rewrite step_enter_phaseA by done.
      unfold confirm_rectangle, segment, current_rectangle in *. simpl.
      rewrite Hi. simpl. by rewrite Hraise.
    - injection Hcall as <- <-.
      rewrite step_key_phaseB by done.
      unfold refine_key, segment. simpl.
      destruct (segmentation_initialized (obj wd)); by rewrite Hraise. }
  destruct Hgoal as (Hp' & Hrest). split; [done|].
  repeat (split; [apply Hrest|]).
  intros evs. apply steps_finished. by right.
Qed.

Lemma engine_failure_ends_session_witness :
  let wd := @run toy_cv2 sample_image "segmented.png"
              [Mouse EVENT_LBUTTONDOWN 2 2; Mouse EVENT_LBUTTONUP 2 2] in
  phase (@step toy_cv2 wd (Key KEY_ENTER)) = Crashed /\
  @steps toy_cv2 (@step toy_cv2 wd (Key KEY_ENTER))
     [Mouse EVENT_LBUTTONDOWN 1 1; Key KEY_S] = @step toy_cv2 wd (Key KEY_ENTER).
Proof.
  intros wd.
  destruct (@engine_failure_ends_session toy_cv2 wd (Some (2, 2, 0, 0))
              GC_INIT_WITH_RECT (zeros_mask sample_image) eq_refl eq_refl)
    as (Hp & _ & _ & _ & _ & Hlater).
  split; [exact Hp | apply Hlater].
Defined.

(** ** The preview *)

(** C5, counterexample: after the first segmentation the brush is switched
    to foreground and a stroke begins at (5, 5). The stroke changes the
    mask, but the preview buffer and the output window still hold the zero
    pixel there, where the composite of image and mask has the source
    colour. *)
Lemma stroke_leaves_preview_stale :
  let before := @run toy_cv2 sample_image "segmented.png"
                  [Mouse EVENT_LBUTTONDOWN 1 1; Mouse EVENT_LBUTTONUP 3 3;
                   Key KEY_ENTER; Key KEY_SPACE] in
  let wd := @step toy_cv2 before (Mouse EVENT_LBUTTONDOWN 5 5) in
  phase before = PhaseB /\
  cell (mask (obj before)) 5 5 = Some GC_BGD /\
  cell (mask (obj wd)) 5 5 = Some GC_FGD /\
  cell (composite (original_image (obj wd)) (mask (obj wd))) 5 5 = Some (45, 7, 200) /\
  cell (segmented_image (obj wd)) 5 5 = Some zero_pixel /\
  (windows wd !! "Output") ≫= (fun shown => cell shown 5 5) = Some zero_pixel /\
  segmented_image (obj wd) <> composite (original_image (obj wd)) (mask (obj wd)).
Proof.
  intros before wd.
  do 6 (split; [vm_compute; reflexivity|]).
  intros Heq. apply (f_equal (fun g => cell g 5 5)) in Heq.
  vm_compute in Heq. discriminate Heq.
Qed.

Lemma refine_key_phase `{Cv2} wd key :
  negb (key =? KEY_ESC) && negb (key =? KEY_SPACE) = true ->
  phase wd = PhaseB ->
  phase (refine_key wd key) <> Crashed ->
  phase (refine_key wd key) = PhaseB /\
  segmented_image (obj (refine_key wd key)) =
    composite (original_image (obj (refine_key wd key)))
              (mask (obj (refine_key wd key))) /\
  windows (refine_key wd key) !! "Output" =
    Some (segmented_image (obj (refine_key wd key))).
Proof.
  intros [Hesc Hspace]%andb_true_iff Hp.
  unfold refine_key.
  destruct (key =? KEY_ESC); [discriminate Hesc|].
  destruct (key =? KEY_SPACE); [discriminate Hspace|].
  destruct (key =? KEY_ENTER).
  - unfold segment.
    destruct (grabCut _ _ _ _) as [m|m]; simpl; [|done].
    intros _. split; [done|]. split; [done|]. by rewrite lookup_insert_eq.
  - destruct (key =? KEY_S); simpl; intros _;
      (split; [done|]; split; [done|]; by rewrite lookup_insert_eq).
Qed.

Lemma draw_markers_preview `{Cv2} wd event mx my :
  segmented_image (obj (draw_markers wd event mx my)) = segmented_image (obj wd) /\
  windows (draw_markers wd event mx my) !! "Output" = windows wd !! "Output".
Proof.
  unfold draw_markers. destruct (brush (obj wd)) as [color marker].
  split.
  - destruct event; simpl; try destruct (drawing (obj wd)); done.
  - simpl. by rewrite lookup_insert_ne.
Qed.

(** C5, as the program has it: after a key that makes [run] recompute - the first
    segmentation on leaving the first loop, a refinement that returns, or
    any other key of the second loop but Esc and Space - the preview buffer
    is the composite of the original image and the current mask, and it is
    what the output window shows. A mouse event that follows changes neither
    the preview buffer nor the output window, whatever it does to the
    mask. *)
Theorem preview_refreshed_by_keys_only `{Cv2} (wd : World) (key : Z) :
  refreshing_key wd key = true ->
  let wd' := step wd (Key key) in
  phase wd' <> Crashed ->
  phase wd' = PhaseB /\
  segmented_image (obj wd') = composite (original_image (obj wd')) (mask (obj wd')) /\
  windows wd' !! "Output" = Some (segmented_image (obj wd')) /\
  forall event mx my,
    let wd'' := step wd' (Mouse event mx my) in
    segmented_image (obj wd'') = segmented_image (obj wd') /\
    windows wd'' !! "Output" = windows wd' !! "Output".
Proof.
  intros Hkey wd' Hlive.
  assert (Hfresh : phase wd' = PhaseB /\
            segmented_image (obj wd') =
              composite (original_image (obj wd')) (mask (obj wd')) /\
            windows wd' !! "Output" = Some (segmented_image (obj wd'))).
  { subst wd'. unfold refreshing_key in Hkey.
    destruct (phase wd) eqn:Hp; try discriminate Hkey.
    - apply andb_true_iff in Hkey as [->%Z.eqb_eq Hi%negb_true_iff].
      rewrite step_enter_phaseA in * by done.
      revert Hlive. unfold confirm_rectangle, segment. simpl. rewrite Hi. simpl.
      destruct (grabCut _ _ _ _) as [m|m]; simpl; [|done].
      intros _. split; [done|]. split; [done|]. by rewrite lookup_insert_eq.
    - rewrite step_key_phaseB in * by done. by apply refine_key_phase. }
  destruct Hfresh as (Hp' & Hseg & Hwin).
  repeat (split; [done|]).
  intros event mx my wd''. subst wd''.
  rewrite step_mouse_phaseB by done. apply draw_markers_preview.
Qed.

Lemma preview_refreshed_by_keys_only_witness :
  let wd := @run toy_cv2 sample_image "segmented.png"
              [Mouse EVENT_LBUTTONDOWN 1 1; Mouse EVENT_LBUTTONUP 3 3; Key KEY_ENTER;
               Key KEY_SPACE; Mouse EVENT_LBUTTONDOWN 5 5] in
  let wd' := @step toy_cv2 wd (Key KEY_ENTER) in
  cell (segmented_image (obj wd)) 5 5 = Some zero_pixel /\
  segmented_image (obj wd') = composite (original_image (obj wd')) (mask (obj wd')) /\
  cell (segmented_image (obj wd')) 5 5 = Some (45, 7, 200).
Proof.
  intros wd wd'.
  destruct (@preview_refreshed_by_keys_only toy_cv2 wd KEY_ENTER eq_refl)
    as (_ & Hseg & _).
  - discriminate.
  - split; [reflexivity|]. split; [exact Hseg | reflexivity].
Defined.

(** ** The first segmentation *)

(** Once the flag is set it stays set, and no call with
    [initialized = False] is made any more. *)
Lemma step_after_initialization `{Cv2} wd ev :
  segmentation_initialized (obj wd) = true ->
  segmentation_initialized (obj (step wd ev)) = true /\
  first_use_calls (step wd ev) = first_use_calls wd.
Proof.
  intros Hi. unfold step.
  destruct (phase wd); [| |done..].
  - destruct ev as [event mx my|key].
    + unfold draw_rectangle. split; [|done].
      destruct event; simpl; try done.
      * by destruct (drawing (obj wd)).
      * by destruct ((Z.min (x (obj wd)) mx =? mx) || (Z.min (y (obj wd)) my =? my)).
    + destruct ((key =? KEY_ESC) || (key =? KEY_ENTER)); [|done].
      destruct (key =? KEY_ENTER); [|done].
      unfold confirm_rectangle. simpl. by rewrite Hi.
  - destruct ev as [event mx my|key].
    + unfold draw_markers. destruct (brush (obj wd)) as [color marker].
      split; [|done].
      destruct event; simpl; try destruct (drawing (obj wd)); done.
    + unfold refine_key.
      destruct (key =? KEY_ESC); [done|].
      destruct (key =? KEY_SPACE).
      { split; [|done]. simpl. by destruct (background (obj wd)). }
      destruct (key =? KEY_ENTER).
      * unfold segment. rewrite Hi.
        destruct (grabCut _ _ _ _) as [m|m]; simpl.
        -- split; [done|].
           change (first_use_calls ?w) with
             (filter (fun c => call_initialized c = false) (rev (calls w))).
           simpl. rewrite filter_app. simpl. apply app_nil_r.
        -- split; [done|].
           change (first_use_calls ?w) with
             (filter (fun c => call_initialized c = false) (rev (calls w))).
           simpl. rewrite filter_app. simpl. apply app_nil_r.
      * by destruct (key =? KEY_S).
Qed.

Lemma steps_after_initialization `{Cv2} wd evs :
  segmentation_initialized (obj wd) = true ->
  segmentation_initialized (obj (steps wd evs)) = true /\
  first_use_calls (steps wd evs) = first_use_calls wd.
Proof.
  revert wd. induction evs as [|ev evs IH]; intros wd Hi; [done|].
  change (steps wd (ev :: evs)) with (steps (step wd ev) evs).
  destruct (step_after_initialization wd ev Hi) as [Hi' <-].
  by apply IH.
Qed.

(** In every session where Enter ends the first loop, the engine is called
    with [initialized = False] exactly once, whatever follows, and the
    rectangle of that call is the one the object holds when Enter is
    pressed. *)
Lemma first_use_exactly_once `{Cv2} img output_path evsA evsB :
  Forall (fun ev => stays_in_phaseA ev = true) evsA ->
  first_use_calls (run img output_path (evsA ++ Key KEY_ENTER :: evsB)) =
    [mkCall false (Some (current_rectangle (obj (run img output_path evsA))))
            (zeros_mask img)].
Proof.
  intros Hstay. unfold run. rewrite steps_app.
  set (wd := steps (start img output_path) evsA).
  change (steps wd (Key KEY_ENTER :: evsB))
    with (steps (step wd (Key KEY_ENTER)) evsB).
  assert (Hu : untouched img wd)
    by (apply steps_untouched; [apply start_untouched | done]).
  pose proof (confirm_untouched img wd Hu) as (Hcalls & _ & Hi & _).
  destruct (steps_after_initialization _ evsB Hi) as [_ ->].
  unfold first_use_calls. by rewrite Hcalls.
Qed.

(** C1: the session finalizes the rectangle (0, 0, 2, 2), a pointer-down
    at (3, 3) follows, and Enter is pressed. The one call with
    [initialized = False] is made on (3, 3, 2, 2): the corner of the
    finalized rectangle was overwritten by the anchor of the drag that had
    just begun. *)
Theorem pointer_down_replaces_finalized_corner :
  let drag := [Mouse EVENT_LBUTTONDOWN 0 0; Mouse EVENT_LBUTTONUP 2 2] in
  let finalized := @run toy_cv2 sample_image "segmented.png" drag in
  let confirmed := @run toy_cv2 sample_image "segmented.png"
                     (drag ++ [Mouse EVENT_LBUTTONDOWN 3 3; Key KEY_ENTER]) in
  current_rectangle (obj finalized) = (0, 0, 2, 2) /\
  map call_rect (first_use_calls confirmed) = [Some (3, 3, 2, 2)] /\
  rect (obj confirmed) = Some (3, 3, 2, 2).
Proof. intros drag finalized confirmed. by vm_compute. Qed.

(** ** Invariants of a whole session *)

Lemma same_shape_refl {A : Type} (g : Grid A) : same_shape g g.
Proof.
  unfold same_shape. apply Forall2_same_length_lookup.
  split; [done|]. intros i l1 l2 H1 H2. congruence.
Qed.

Lemma same_shape_trans {A B C : Type} (g1 : Grid A) (g2 : Grid B) (g3 : Grid C) :
  same_shape g1 g2 -> same_shape g2 g3 -> same_shape g1 g3.
Proof.
  unfold same_shape. intros H12 H23.
  eapply Forall2_trans; [|exact H12|exact H23].
  simpl. by intros l1 l2 l3 -> ->.
Qed.

Lemma same_shape_sym {A B : Type} (g1 : Grid A) (g2 : Grid B) :
  same_shape g1 g2 -> same_shape g2 g1.
Proof.
  unfold same_shape. intros H12. apply Forall2_flip.
  eapply Forall2_impl; [exact H12|]. unfold flip. by intros l1 l2 ->.
Qed.

Lemma circle_same_shape `{Cv2} {A B : Type} (g : Grid A) (g' : Grid B) center radius color :
  same_shape g g' -> same_shape (circle g center radius color) g'.
Proof. intros Hs. eapply same_shape_trans; [apply paint_same_shape | done]. Qed.

Lemma rectangle_same_shape `{Cv2} {A : Type} (g : Grid A) pt1 pt2 color thickness :
  same_shape (rectangle g pt1 pt2 color thickness) g.
Proof. apply paint_same_shape. Qed.

(** A property of the start that every event keeps holds of every session. *)
Lemma run_invariant `{Cv2} (P : World -> Prop) img output_path evs :
  P (start img output_path) ->
  (forall wd ev, P wd -> P (step wd ev)) ->
  P (run img output_path evs).
Proof.
  intros Hstart Hstep. unfold run.
  generalize (start img output_path) Hstart. clear Hstart.
  induction evs as [|ev evs IH]; intros wd Hwd; [done|].
  change (steps wd (ev :: evs)) with (steps (step wd ev) evs).
  apply IH. by apply Hstep.
Qed.

Lemma draw_rectangle_framed `{Cv2} img path wd event mx my :
  framed img path wd -> framed img path (draw_rectangle wd event mx my).
Proof.
  unfold framed, draw_rectangle. intros (Ho & Hpath & Hs & Hwin).
  simpl. rewrite lookup_insert_eq.
  destruct event; simpl.
  - destruct (drawing (obj wd)); simpl; [|done].
    repeat (split; [done|]). split; [|done].
    rewrite Ho. apply rectangle_same_shape.
  - done.
  - destruct ((Z.min (x (obj wd)) mx =? mx) || (Z.min (y (obj wd)) my =? my));
      simpl; (repeat (split; [done|])); (split; [|done]);
      rewrite Ho; apply rectangle_same_shape.
  - done.
Qed.

Lemma draw_markers_framed `{Cv2} img path wd event mx my :
  framed img path wd -> framed img path (draw_markers wd event mx my).
Proof.
  unfold framed, draw_markers. intros (Ho & Hpath & Hs & Hwin).
  destruct (brush (obj wd)) as [color marker].
  simpl. rewrite lookup_insert_eq.
  destruct event; simpl; try destruct (drawing (obj wd)); simpl;
    try done; (repeat (split; [done|])); (split; [|done]);
    by apply circle_same_shape.
Qed.

Lemma step_framed `{Cv2} img path wd ev :
  framed img path wd -> framed img path (step wd ev).
Proof.
  intros Hf. unfold step.
  destruct (phase wd); [| |done..].
  - destruct ev as [event mx my|key]; [by apply draw_rectangle_framed|].
    destruct ((key =? KEY_ESC) || (key =? KEY_ENTER)); [|done].
    destruct (key =? KEY_ENTER); [|done].
    destruct Hf as (Ho & Hpath & Hs & Hwin).
    unfold framed, confirm_rectangle, segment. simpl.
    destruct (segmentation_initialized (obj wd)); simpl.
    + by rewrite lookup_insert_ne, lookup_insert_eq.
    + destruct (grabCut _ _ _ _) as [m|m]; simpl; [|done].
      by rewrite lookup_insert_ne, lookup_insert_eq.
  - destruct ev as [event mx my|key]; [by apply draw_markers_framed|].
    destruct Hf as (Ho & Hpath & Hs & Hwin).
    unfold framed, refine_key.
    destruct (key =? KEY_ESC); [done|].
    destruct (key =? KEY_SPACE).
    { simpl. rewrite lookup_insert_ne, lookup_insert_eq by done.
      by destruct (background (obj wd)). }
    destruct (key =? KEY_ENTER).
    + unfold segment. destruct (grabCut _ _ _ _) as [m|m]; simpl; [|done].
      by rewrite lookup_insert_ne, lookup_insert_eq.
    + destruct (key =? KEY_S); simpl;
        by rewrite lookup_insert_ne, lookup_insert_eq.
Qed.

Lemma start_framed img path : framed img path (start img path).
Proof.
  unfold framed, start. simpl. rewrite lookup_insert_eq.
  repeat (split; [done|]). split; [apply same_shape_refl | done].
Qed.

Lemma run_framed `{Cv2} img path evs : framed img path (run img path evs).
Proof.
  apply (run_invariant (framed img path)); [apply start_framed|].
  intros wd ev. apply step_framed.
Qed.

(** X1: no event ever changes the loaded image or the configured output
    path: after any stream of events they are what the session was created
    with. *)
Theorem loaded_image_and_path_never_change `{Cv2} (img : Image)
    (output_path' : string) (evs : list Event) :
  original_image (obj (run img output_path' evs)) = img /\
  output_path (obj (run img output_path' evs)) = output_path'.
Proof.
  destruct (run_framed img output_path' evs) as (Ho & Hpath & _).
  by split.
Qed.

(** X2: the overlay the user draws on always has the shape of the loaded
    image, whatever rectangles and discs were drawn on it. *)
Theorem overlay_keeps_image_shape `{Cv2} (img : Image) (output_path' : string)
    (evs : list Event) :
  same_shape (image (obj (run img output_path' evs))) img.
Proof. apply (run_framed img output_path' evs). Qed.

(** X3: after every event the input window shows the current overlay: the
    overlay is never changed without being shown. *)
Theorem input_window_shows_overlay `{Cv2} (img : Image) (output_path' : string)
    (evs : list Event) :
  windows (run img output_path' evs) !! "Input" =
    Some (image (obj (run img output_path' evs))).
Proof. apply (run_framed img output_path' evs). Qed.

Lemma paint_Forall {A : Type} (P : A -> Prop) covers (color : A) (g : list (list A)) :
  P color -> Forall (Forall P) g -> Forall (Forall P) (paint covers color g).
Proof.
  intros Hc Hg. unfold paint.
  apply Forall_lookup_2. intros row line Hrow.
  rewrite list_lookup_imap in Hrow.
  destruct (g !! row) as [old|] eqn:Hold; simpl in Hrow; [|done].
  injection Hrow as <-.
  pose proof (Forall_lookup_1 _ _ _ _ Hg Hold) as Hline.
  apply Forall_lookup_2. intros col v Hcol.
  rewrite list_lookup_imap in Hcol.
  destruct (old !! col) as [u|] eqn:Hu; simpl in Hcol; [|done].
  injection Hcol as <-.
  destruct (covers _); [done|].
  by apply (Forall_lookup_1 _ _ _ _ Hline Hu).
Qed.

Lemma zeros_mask_same_shape (img : list (list (Z * Z * Z))) :
  same_shape (zeros_mask img) img.
Proof.
  unfold same_shape, zeros_mask. apply Forall2_fmap_l.
  apply Forall_Forall2_diag. apply Forall_forall. intros line _.
  simpl. apply length_map.
Qed.

Lemma zeros_like_same_shape (img : list (list (Z * Z * Z))) :
  same_shape (zeros_like img) img.
Proof.
  unfold same_shape, zeros_like. apply Forall2_fmap_l.
  apply Forall_Forall2_diag. apply Forall_forall. intros line _.
  simpl. apply length_map.
Qed.

Lemma zeros_mask_valid (img : list (list (Z * Z * Z))) :
  valid_labels (zeros_mask img).
Proof.
  unfold valid_labels, zeros_mask. apply Forall_fmap, Forall_forall.
  intros line _. simpl. apply Forall_fmap, Forall_forall.
  intros p _. simpl. unfold GC_BGD, GC_PR_FGD. lia.
Qed.

Lemma draw_rectangle_mask `{Cv2} wd event mx my :
  mask (obj (draw_rectangle wd event mx my)) = mask (obj wd) /\
  segmented_image (obj (draw_rectangle wd event mx my)) = segmented_image (obj wd).
Proof.
  unfold draw_rectangle. destruct event; simpl; try done.
  - by destruct (drawing (obj wd)).
  - by destruct ((Z.min (x (obj wd)) mx =? mx) || (Z.min (y (obj wd)) my =? my)).
Qed.

Lemma update_segmented_image_shape (img : list (list (Z * Z * Z))) (self : GrabCut) :
  original_image self = img ->
  same_shape (mask self) img ->
  mask (update_segmented_image self) = mask self /\
  same_shape (segmented_image (update_segmented_image self)) img.
Proof.
  intros <- Hm. split; [done|].
  apply (composite_same_shape (original_image self) (mask self)).
  by apply same_shape_sym.
Qed.

Lemma step_shapes `{cv : Cv2} img path wd ev :
  engine_keeps_shape cv ->
  framed img path wd ->
  same_shape (mask (obj wd)) img /\ same_shape (segmented_image (obj wd)) img ->
  same_shape (mask (obj (step wd ev))) img /\
  same_shape (segmented_image (obj (step wd ev))) img.
Proof.
  intros Hcv (Ho & _) [Hm Hs]. subst img. unfold step.
  destruct (phase wd); [| |done..].
  - destruct ev as [event mx my|key].
    { destruct (draw_rectangle_mask wd event mx my) as [-> ->]. done. }
    destruct ((key =? KEY_ESC) || (key =? KEY_ENTER)); [|done].
    destruct (key =? KEY_ENTER); [|done].
    unfold confirm_rectangle, segment. simpl.
    destruct (segmentation_initialized (obj wd)); simpl; [done|].
    pose proof (Hcv (original_image (obj wd)) (mask (obj wd))
                  (Some (x (obj wd), y (obj wd), w (obj wd), h (obj wd)))
                  GC_INIT_WITH_RECT Hm) as Hres.
    destruct (grabCut _ _ _ _) as [m|m]; simpl; [|done].
    split; [done|]. apply (composite_same_shape (original_image (obj wd)) m).
    by apply same_shape_sym.
  - destruct ev as [event mx my|key].
    { destruct (draw_markers_preview wd event mx my) as [-> _].
      split; [|done].
      destruct (draw_markers_mask wd event mx my) as [-> | ->]; [done|].
      by apply circle_same_shape. }
    unfold refine_key.
    destruct (key =? KEY_ESC); [done|].
    destruct (key =? KEY_SPACE).
    { simpl. by destruct (background (obj wd)). }
    destruct (key =? KEY_ENTER).
    + unfold segment.
      pose proof (Hcv (original_image (obj wd)) (mask (obj wd)) (rect (obj wd))
                    (if segmentation_initialized (obj wd)
                     then GC_INIT_WITH_MASK else GC_INIT_WITH_RECT) Hm) as Hres.
      destruct (grabCut _ _ _ _) as [m|m]; simpl; [|done].
      split; [done|]. apply (composite_same_shape (original_image (obj wd)) m).
      by apply same_shape_sym.
    + destruct (key =? KEY_S); simpl;
        (split; [done|];
         apply (composite_same_shape (original_image (obj wd)) (mask (obj wd)));
         by apply same_shape_sym).
Qed.

(** X4: as long as the engine leaves a mask of the image's shape, the mask
    and the preview buffer have the shape of the loaded image after every
    event: strokes, segmentations and recomputations never resize them. *)
Theorem mask_and_preview_keep_image_shape `{cv : Cv2} (img : Image)
    (output_path' : string) (evs : list Event) :
  engine_keeps_shape cv ->
  same_shape (mask (obj (run img output_path' evs))) img /\
  same_shape (segmented_image (obj (run img output_path' evs))) img.
Proof.
  intros Hcv.
  apply (run_invariant
           (fun wd => framed img output_path' wd /\
                      same_shape (mask (obj wd)) img /\
                      same_shape (segmented_image (obj wd)) img)).
  - split; [apply start_framed|].
    split; [apply zeros_mask_same_shape | apply zeros_like_same_shape].
  - intros wd ev [Hf Hshape].
    split; [by apply step_framed | by eapply step_shapes].
Qed.

Lemma lenient_keeps_shape : engine_keeps_shape lenient_cv2.
Proof. by intros img m r mode Hm. Qed.

Lemma mask_and_preview_keep_image_shape_witness :
  let wd := @run lenient_cv2 sample_image "segmented.png"
              [Mouse EVENT_LBUTTONDOWN 1 1; Mouse EVENT_LBUTTONUP 4 4; Key KEY_ENTER;
               Mouse EVENT_LBUTTONDOWN 7 2; Key KEY_ENTER] in
  same_shape (mask (obj wd)) sample_image /\
  same_shape (segmented_image (obj wd)) sample_image.
Proof.
  intros wd.
  exact (@mask_and_preview_keep_image_shape lenient_cv2 sample_image "segmented.png"
           _ lenient_keeps_shape).
Defined.

Lemma step_labels `{cv : Cv2} wd ev :
  engine_valid_labels cv ->
  valid_labels (mask (obj wd)) ->
  valid_labels (mask (obj (step wd ev))).
Proof.
  intros Hcv Hm. unfold step.
  destruct (phase wd); [| |done..].
  - destruct ev as [event mx my|key].
    { by destruct (draw_rectangle_mask wd event mx my) as [-> _]. }
    destruct ((key =? KEY_ESC) || (key =? KEY_ENTER)); [|done].
    destruct (key =? KEY_ENTER); [|done].
    unfold confirm_rectangle, segment. simpl.
    destruct (segmentation_initialized (obj wd)); simpl; [done|].
    pose proof (Hcv (original_image (obj wd)) (mask (obj wd))
                  (Some (x (obj wd), y (obj wd), w (obj wd), h (obj wd)))
                  GC_INIT_WITH_RECT Hm) as Hres.
    by destruct (grabCut _ _ _ _) as [m|m].
  - destruct ev as [event mx my|key].
    { destruct (draw_markers_mask wd event mx my) as [-> | ->]; [done|].
      unfold circle. apply paint_Forall; [|done].
      unfold brush, GC_BGD, GC_PR_FGD. destruct (background (obj wd)); simpl; lia. }
    unfold refine_key.
    destruct (key =? KEY_ESC); [done|].
    destruct (key =? KEY_SPACE).
    { simpl. by destruct (background (obj wd)). }
    destruct (key =? KEY_ENTER).
    + unfold segment.
      pose proof (Hcv (original_image (obj wd)) (mask (obj wd)) (rect (obj wd))
                    (if segmentation_initialized (obj wd)
                     then GC_INIT_WITH_MASK else GC_INIT_WITH_RECT) Hm) as Hres.
      by destruct (grabCut _ _ _ _) as [m|m].
    + by destruct (key =? KEY_S).
Qed.

(** X5: as long as the engine leaves only labels in the mask, every cell of
    the mask holds one of the four labels after every event: the mask starts
    as definite background everywhere and a stroke writes definite
    background or definite foreground only. *)
Theorem mask_holds_labels_only `{cv : Cv2} (img : Image) (output_path' : string)
    (evs : list Event) :
  engine_valid_labels cv ->
  valid_labels (mask (obj (run img output_path' evs))).
Proof.
  intros Hcv.
  apply (run_invariant (fun wd => valid_labels (mask (obj wd)))).
  - apply zeros_mask_valid.
  - intros wd ev. by apply step_labels.
Qed.

Lemma lenient_valid_labels : engine_valid_labels lenient_cv2.
Proof. by intros img m r mode Hm. Qed.

Lemma mask_holds_labels_only_witness :
  valid_labels
    (mask (obj (@run lenient_cv2 sample_image "segmented.png"
                  [Key KEY_ENTER; Key KEY_SPACE; Mouse EVENT_LBUTTONDOWN 2 2;
                   Mouse EVENT_MOUSEMOVE 3 2; Key KEY_ENTER]))).
Proof.
  exact (@mask_holds_labels_only lenient_cv2 sample_image "segmented.png"
           _ lenient_valid_labels).
Defined.

(** ** Leaving the session *)

(** X6: when Esc ends the first loop, the session returns without having
    called the engine or written a file, with the mask and the preview
    still all zero, and whatever events follow are ignored. *)
Theorem abort_in_first_loop `{Cv2} (img : Image) (output_path' : string)
    (evs later : list Event) :
  Forall (fun ev => stays_in_phaseA ev = true) evs ->
  let wd := run img output_path' (evs ++ Key KEY_ESC :: later) in
  phase wd = Exited /\
  calls wd = [] /\ files wd = [] /\
  mask (obj wd) = zeros_mask img /\
  segmented_image (obj wd) = zeros_like img.
Proof.
  intros Hstay wd. subst wd. unfold run. rewrite steps_app.
  set (wd := steps (start img output_path') evs).
  assert (Hu : untouched img wd)
    by (apply steps_untouched; [apply start_untouched | done]).
  destruct Hu as (Hp & _ & Hc & Hf & _ & Hm & Hs & _).
  change (steps wd (Key KEY_ESC :: later))
    with (steps (step wd (Key KEY_ESC)) later).
  assert (Hesc : step wd (Key KEY_ESC) = set_phase Exited wd)
    by (unfold step; by rewrite Hp).
  rewrite Hesc, steps_finished by (by left). done.
Qed.

Lemma abort_in_first_loop_witness :
  let wd := @run toy_cv2 sample_image "segmented.png"
              [Mouse EVENT_LBUTTONDOWN 1 1; Mouse EVENT_LBUTTONUP 4 4; Key KEY_S;
               Key KEY_ESC; Key KEY_ENTER; Key KEY_S] in
  phase wd = Exited /\ calls wd = [] /\ files wd = [].
Proof.
  intros wd.
  destruct (@abort_in_first_loop toy_cv2 sample_image "segmented.png"
              [Mouse EVENT_LBUTTONDOWN 1 1; Mouse EVENT_LBUTTONUP 4 4; Key KEY_S]
              [Key KEY_ENTER; Key KEY_S])
    as (Hp & Hc & Hf & _).
  - by repeat constructor.
  - by split.
Defined.

(** X7: Esc in the second loop ends the session as it stands: the object,
    the windows, the engine calls and the files are what they were - in
    particular nothing is saved on the way out - and later events are
    ignored. *)
Theorem abort_in_second_loop `{Cv2} (wd : World) (later : list Event) :
  phase wd = PhaseB ->
  let wd' := steps wd (Key KEY_ESC :: later) in
  phase wd' = Exited /\
  obj wd' = obj wd /\ windows wd' = windows wd /\
  calls wd' = calls wd /\ files wd' = files wd.
Proof.
  intros Hp wd'. subst wd'.
  change (steps wd (Key KEY_ESC :: later))
    with (steps (step wd (Key KEY_ESC)) later).
  rewrite step_key_phaseB by done.
  change (refine_key wd KEY_ESC) with (set_phase Exited wd).
  by rewrite steps_finished by (by left).
Qed.

Lemma abort_in_second_loop_witness :
  let wd := @run toy_cv2 sample_image "segmented.png"
              [Mouse EVENT_LBUTTONDOWN 1 1; Mouse EVENT_LBUTTONUP 4 4; Key KEY_ENTER;
               Mouse EVENT_LBUTTONDOWN 0 0] in
  files (@steps toy_cv2 wd [Key KEY_ESC; Key KEY_S]) = [] /\
  phase (@steps toy_cv2 wd [Key KEY_ESC; Key KEY_S]) = Exited.
Proof.
  intros wd.
  destruct (@abort_in_second_loop toy_cv2 wd [Key KEY_S] eq_refl)
    as (Hp & _ & _ & _ & Hf).
  split; [exact Hf | exact Hp].
Defined.

(** ** The rectangle overlay *)

(** X8: in the first loop a pointer-up finalizes a rectangle from the
    anchor the object holds - also when no drag is in progress - and both
    branches of the callback draw the same outline: the overlay is the
    loaded image with the outline from (x, y) to (x + w, y + h) of the
    finalized rectangle, and the input window shows it. *)
Theorem pointer_up_outline_matches_rectangle `{Cv2} (wd : World) (ux uy : Z) :
  phase wd = PhaseA ->
  let self := obj (step wd (Mouse EVENT_LBUTTONUP ux uy)) in
  current_rectangle self =
    (Z.min (x (obj wd)) ux, Z.min (y (obj wd)) uy,
     Z.abs (x (obj wd) - ux), Z.abs (y (obj wd) - uy)) /\
  image self =
    rectangle (original_image (obj wd)) (x self, y self)
              (x self + w self, y self + h self) blue 2 /\
  windows (step wd (Mouse EVENT_LBUTTONUP ux uy)) !! "Input" = Some (image self).
Proof.
  intros Hp self. subst self. rewrite step_mouse_phaseA by done.
  unfold draw_rectangle, current_rectangle. simpl. rewrite lookup_insert_eq.
  destruct ((Z.min (x (obj wd)) ux =? ux) || (Z.min (y (obj wd)) uy =? uy))
    eqn:Hcond; simpl; [done|].
  apply orb_false_iff in Hcond as [Hx%Z.eqb_neq Hy%Z.eqb_neq].
  split; [done|]. split; [|done].
  do 2 f_equal; lia.
Qed.

Lemma pointer_up_outline_matches_rectangle_witness :
  let wd := @run toy_cv2 sample_image "segmented.png" [] in
  current_rectangle (obj (@step toy_cv2 wd (Mouse EVENT_LBUTTONUP 3 4))) =
    (0, 0, 3, 4).
Proof.
  intros wd.
  destruct (@pointer_up_outline_matches_rectangle toy_cv2 wd 3 4 eq_refl)
    as (Hrect & _).
  exact Hrect.
Defined.

Lemma two_moves `{Cv2} wd px py qx qy :
  phase wd = PhaseA ->
  step (step wd (Mouse EVENT_MOUSEMOVE px py)) (Mouse EVENT_MOUSEMOVE qx qy) =
  step wd (Mouse EVENT_MOUSEMOVE qx qy).
Proof.
  intros Hp. rewrite !(step_mouse_phaseA wd) by done.
  rewrite step_mouse_phaseA by (by rewrite draw_rectangle_phase).
  unfold draw_rectangle, imshow, set_obj.
  destruct (drawing (obj wd)) eqn:Hd; simpl; rewrite ?Hd; simpl;
    f_equal; apply insert_insert_eq.
Qed.

(** X9: during a drag in the first loop the outline is redrawn on a fresh
    copy of the loaded image at every pointer move, so outlines do not pile
    up: after any number of moves the session is exactly where the last
    move alone would have put it. *)
Theorem only_last_move_matters `{Cv2} (wd : World) (moves : list Event)
    (qx qy : Z) :
  phase wd = PhaseA ->
  Forall (fun ev => is_pointer_move ev = true) moves ->
  steps wd (moves ++ [Mouse EVENT_MOUSEMOVE qx qy]) =
  step wd (Mouse EVENT_MOUSEMOVE qx qy).
Proof.
  intros Hp Hm. revert wd Hp.
  induction Hm as [|ev moves Hev _ IH]; intros wd Hp; [done|].
  destruct ev as [[] px py|]; try discriminate Hev.
  change (steps wd ((Mouse EVENT_MOUSEMOVE px py :: moves) ++
                    [Mouse EVENT_MOUSEMOVE qx qy]))
    with (steps (step wd (Mouse EVENT_MOUSEMOVE px py))
                (moves ++ [Mouse EVENT_MOUSEMOVE qx qy])).
  rewrite IH.
  - by apply two_moves.
  - by rewrite step_mouse_phaseA, draw_rectangle_phase.
Qed.

Lemma only_last_move_matters_witness :
  let wd := @run toy_cv2 sample_image "segmented.png" [Mouse EVENT_LBUTTONDOWN 1 1] in
  @steps toy_cv2 wd [Mouse EVENT_MOUSEMOVE 2 2; Mouse EVENT_MOUSEMOVE 5 3;
                     Mouse EVENT_MOUSEMOVE 4 4] =
  @step toy_cv2 wd (Mouse EVENT_MOUSEMOVE 4 4).
Proof.
  intros wd.
  apply (@only_last_move_matters toy_cv2 wd
           [Mouse EVENT_MOUSEMOVE 2 2; Mouse EVENT_MOUSEMOVE 5 3] 4 4 eq_refl).
  by repeat constructor.
Defined.

(** ** Strokes and the brush *)

(** X10: pressing the toggle key twice in the second loop puts the object
    back exactly as it was, brush included; no engine call and no file is
    made on the way. *)
Theorem toggle_twice_restores_brush `{Cv2} (wd : World) :
  phase wd = PhaseB ->
  let wd' := steps wd [Key KEY_SPACE; Key KEY_SPACE] in
  obj wd' = obj wd /\ phase wd' = PhaseB /\
  calls wd' = calls wd /\ files wd' = files wd.
Proof.
  intros Hp wd'. subst wd'.
  change (steps wd [Key KEY_SPACE; Key KEY_SPACE])
    with (step (step wd (Key KEY_SPACE)) (Key KEY_SPACE)).
  rewrite (step_key_phaseB wd) by done.
  rewrite step_key_phaseB by done.
  unfold refine_key. simpl.
  destruct (obj wd) as [o i s m p ox oy ow oh r d [] si]; simpl; by rewrite Hp.
Qed.

Lemma toggle_twice_restores_brush_witness :
  let wd := @run toy_cv2 sample_image "segmented.png"
              [Mouse EVENT_LBUTTONDOWN 1 1; Mouse EVENT_LBUTTONUP 4 4; Key KEY_ENTER] in
  background (obj (@steps toy_cv2 wd [Key KEY_SPACE; Key KEY_SPACE])) = true.
Proof.
  intros wd.
  destruct (@toggle_twice_restores_brush toy_cv2 wd eq_refl) as (Hobj & _).
  by rewrite Hobj.
Defined.

(** X11: stamping again where the stroke began adds nothing: a pointer-move
    or the pointer-up at the very point of the pointer-down leaves the mask
    and the overlay as the pointer-down alone made them. *)
Theorem stamp_at_same_point_adds_nothing `{Cv2} (wd : World) (mx my : Z) :
  phase wd = PhaseB ->
  let down := step wd (Mouse EVENT_LBUTTONDOWN mx my) in
  obj (step down (Mouse EVENT_MOUSEMOVE mx my)) = obj down /\
  mask (obj (step down (Mouse EVENT_LBUTTONUP mx my))) = mask (obj down) /\
  image (obj (step down (Mouse EVENT_LBUTTONUP mx my))) = image (obj down) /\
  drawing (obj (step down (Mouse EVENT_LBUTTONUP mx my))) = false.
Proof.
  intros Hp down. subst down.
  rewrite (step_mouse_phaseB wd) by done.
  rewrite !step_mouse_phaseB by (by rewrite draw_markers_phase).
  unfold draw_markers, brush, stamp, circle.
  destruct (background (obj wd)) eqn:Hb; simpl; rewrite Hb; simpl;
    rewrite !paint_idempotent; done.
Qed.

Lemma stamp_at_same_point_adds_nothing_witness :
  let wd := @run toy_cv2 sample_image "segmented.png"
              [Mouse EVENT_LBUTTONDOWN 1 1; Mouse EVENT_LBUTTONUP 4 4; Key KEY_ENTER] in
  mask (obj (@steps toy_cv2 wd [Mouse EVENT_LBUTTONDOWN 2 2; Mouse EVENT_LBUTTONUP 2 2]))
  = mask (obj (@step toy_cv2 wd (Mouse EVENT_LBUTTONDOWN 2 2))).
Proof.
  intros wd.
  destruct (@stamp_at_same_point_adds_nothing toy_cv2 wd 2 2 eq_refl)
    as (_ & Hmask & _).
  exact Hmask.
Defined.

(** X12: pointer events that arrive while no button is held change nothing
    in the object: a pointer-move in either loop, and a pointer-up in the
    second loop. *)
Theorem idle_pointer_events_change_nothing `{Cv2} (wd : World) (mx my : Z) :
  drawing (obj wd) = false ->
  phase wd = PhaseA \/ phase wd = PhaseB ->
  obj (step wd (Mouse EVENT_MOUSEMOVE mx my)) = obj wd /\
  (phase wd = PhaseB -> obj (step wd (Mouse EVENT_LBUTTONUP mx my)) = obj wd).
Proof.
  intros Hd [Hp | Hp].
  - split; [|by rewrite Hp].
    rewrite step_mouse_phaseA by done. unfold draw_rectangle. simpl.
    by rewrite Hd.
  - rewrite !step_mouse_phaseB by done. unfold draw_markers.
    destruct (brush (obj wd)) as [color marker]. simpl. by rewrite Hd.
Qed.

Lemma idle_pointer_events_change_nothing_witness :
  let wd := @run toy_cv2 sample_image "segmented.png"
              [Mouse EVENT_LBUTTONDOWN 1 1; Mouse EVENT_LBUTTONUP 4 4; Key KEY_ENTER] in
  obj (@step toy_cv2 wd (Mouse EVENT_MOUSEMOVE 2 2)) = obj wd /\
  obj (@step toy_cv2 wd (Mouse EVENT_LBUTTONUP 2 2)) = obj wd.
Proof.
  intros wd.
  destruct (@idle_pointer_events_change_nothing toy_cv2 wd 2 2 eq_refl
              (or_intror eq_refl)) as (Hmove & Hup).
  split; [exact Hmove | exact (Hup eq_refl)].
Defined.

(** ** Saving, again *)

(** X13: the name handed to [cv2.imwrite] always ends in one of the two
    recognized extensions, and choosing the name is idempotent. *)
Theorem save_target_recognized (path : string) :
  endswith (save_target path) ".png" || endswith (save_target path) ".jpg" = true /\
  save_target (save_target path) = save_target path.
Proof.
  assert (Hrec : endswith (save_target path) ".png" ||
                 endswith (save_target path) ".jpg" = true).
  { unfold save_target.
    destruct (endswith path ".png" || endswith path ".jpg") eqn:Hp; [done|].
    by vm_compute. }
  split; [done|].
  unfold save_target at 1. by rewrite Hrec.
Qed.

Lemma draw_markers_frame `{Cv2} wd event mx my :
  original_image (obj (draw_markers wd event mx my)) = original_image (obj wd) /\
  output_path (obj (draw_markers wd event mx my)) = output_path (obj wd) /\
  files (draw_markers wd event mx my) = files wd /\
  calls (draw_markers wd event mx my) = calls wd.
Proof.
  unfold draw_markers. destruct (brush (obj wd)) as [color marker].
  destruct event; simpl; try destruct (drawing (obj wd)); done.
Qed.

(** X14: the save key writes the preview as it was last recomputed and
    recomputes it only afterwards. Saving right after a mouse event
    therefore writes the preview from before that event; saving once more
    writes the composite of the image and the mask the event left. *)
Theorem save_writes_preview_before_refresh `{Cv2} (wd : World)
    (event : MouseEvent) (mx my : Z) :
  phase wd = PhaseB ->
  let target := save_target (output_path (obj wd)) in
  let wd1 := step wd (Mouse event mx my) in
  let wd2 := step wd1 (Key KEY_S) in
  let wd3 := step wd2 (Key KEY_S) in
  files wd2 = (target, segmented_image (obj wd)) :: files wd /\
  files wd3 =
    (target, composite (original_image (obj wd)) (mask (obj wd1))) :: files wd2.
Proof.
  intros Hp target wd1 wd2 wd3.
  assert (Hp1 : phase wd1 = PhaseB).
  { subst wd1. by rewrite step_mouse_phaseB, draw_markers_phase. }
  assert (H1 : segmented_image (obj wd1) = segmented_image (obj wd) /\
               original_image (obj wd1) = original_image (obj wd) /\
               output_path (obj wd1) = output_path (obj wd) /\
               files wd1 = files wd).
  { subst wd1. rewrite step_mouse_phaseB by done.
    destruct (draw_markers_preview wd event mx my) as [-> _].
    destruct (draw_markers_frame wd event mx my) as (-> & -> & -> & _). done. }
  destruct H1 as (Hs & Ho & Hpath & Hf).
  assert (H2 : wd2 = show_both
                 (set_obj (update_segmented_image (obj wd1))
                    (imwrite (save_target (output_path (obj wd1)))
                       (segmented_image (obj wd1)) wd1))).
  { subst wd2. by rewrite step_key_phaseB. }
  split.
  - rewrite H2. simpl. by rewrite Hs, Hpath, Hf.
  - subst wd3. rewrite step_key_phaseB by (by rewrite H2).
    rewrite H2. simpl. by rewrite Ho, Hpath.
Qed.

Lemma save_writes_preview_before_refresh_witness :
  let wd := @run toy_cv2 sample_image "out.txt"
              [Mouse EVENT_LBUTTONDOWN 1 1; Mouse EVENT_LBUTTONUP 3 3; Key KEY_ENTER;
               Key KEY_SPACE] in
  let saved := @steps toy_cv2 wd [Mouse EVENT_LBUTTONDOWN 5 5; Key KEY_S] in
  files saved = [("output.jpg", segmented_image (obj wd))] /\
  cell (segmented_image (obj wd)) 5 5 = Some zero_pixel /\
  cell (mask (obj saved)) 5 5 = Some GC_FGD.
Proof.
  intros wd saved.
  destruct (@save_writes_preview_before_refresh toy_cv2 wd EVENT_LBUTTONDOWN 5 5
              eq_refl) as (Hfiles & _).
  split; [exact Hfiles|]. split; by vm_compute.
Defined.

(** ** Refinement rounds *)

Lemma step_frozen `{Cv2} r wd ev :
  frozen r wd ->
  frozen r (step wd ev) /\
  exists new,
    calls (step wd ev) = new ++ calls wd /\
    Forall (fun c => call_initialized c = true /\ call_rect c = Some r) new.
Proof.
  intros Hf. pose proof Hf as (Hi & Hp & Hr & Hc).
  assert (Hidle : frozen r wd /\
            exists new, calls wd = new ++ calls wd /\
              Forall (fun c => call_initialized c = true /\ call_rect c = Some r) new)
    by (split; [done | by exists []]).
  unfold step.
  destruct (phase wd) eqn:Hphase; [done| |done..].
  clear Hidle Hf.
  destruct ev as [event mx my|key].
  - split.
    + unfold frozen, draw_markers, current_rectangle in *.
      destruct (brush (obj wd)) as [color marker].
      destruct event; simpl; try destruct (drawing (obj wd)); simpl;
        by rewrite ?Hphase.
    + exists []. split; [|done].
      by destruct (draw_markers_frame wd event mx my) as (_ & _ & _ & ->).
  - unfold refine_key.
    destruct (key =? KEY_ESC).
    { split; [done | by exists []]. }
    destruct (key =? KEY_SPACE).
    { split; [|by exists []].
      unfold frozen, current_rectangle in *. simpl.
      destruct (background (obj wd)); simpl; by rewrite Hphase. }
    destruct (key =? KEY_ENTER).
    + unfold segment. rewrite Hi.
      destruct (grabCut _ _ _ _) as [m|m]; simpl.
      * split; [unfold frozen, current_rectangle in *; simpl; by rewrite Hphase|].
        exists [mkCall true (rect (obj wd)) (mask (obj wd))].
        split; [done|]. by repeat constructor.
      * split; [by unfold frozen, current_rectangle in *|].
        exists [mkCall true (rect (obj wd)) (mask (obj wd))].
        split; [done|]. by repeat constructor.
    + destruct (key =? KEY_S); simpl;
        (split; [unfold frozen, current_rectangle in *; simpl; by rewrite Hphase
                | by exists []]).
Qed.

Lemma steps_frozen `{Cv2} r wd evs :
  frozen r wd ->
  frozen r (steps wd evs) /\
  exists new,
    calls (steps wd evs) = new ++ calls wd /\
    Forall (fun c => call_initialized c = true /\ call_rect c = Some r) new.
Proof.
  revert wd. induction evs as [|ev evs IH]; intros wd Hf.
  - split; [done|]. by exists [].
  - change (steps wd (ev :: evs)) with (steps (step wd ev) evs).
    destruct (step_frozen r wd ev Hf) as (Hf1 & new1 & Hc1 & Hall1).
    destruct (IH _ Hf1) as (Hf2 & new2 & Hc2 & Hall2).
    split; [done|]. exists (new2 ++ new1).
    split; [by rewrite Hc2, Hc1, app_assoc|].
    by apply Forall_app.
Qed.

Lemma confirm_keeps_rest `{Cv2} wd :
  current_rectangle (obj (confirm_rectangle wd)) = current_rectangle (obj wd) /\
  background (obj (confirm_rectangle wd)) = background (obj wd) /\
  image (obj (confirm_rectangle wd)) = image (obj wd) /\
  drawing (obj (confirm_rectangle wd)) = false.
Proof.
  unfold confirm_rectangle, segment, current_rectangle. simpl.
  destruct (segmentation_initialized (obj wd)); simpl; [done|].
  by destruct (grabCut _ _ _ _).
Qed.

(** X15: once Enter has ended the first loop the rectangle is frozen: the
    object keeps it to the end of the session, and every later call of the
    engine is a refinement ([initialized = True]) that is handed that same
    rectangle. *)
Theorem refinements_reuse_frozen_rectangle `{Cv2} (img : Image)
    (output_path' : string) (evsA evsB : list Event) :
  Forall (fun ev => stays_in_phaseA ev = true) evsA ->
  let r := current_rectangle (obj (run img output_path' evsA)) in
  let wd := run img output_path' (evsA ++ Key KEY_ENTER :: evsB) in
  rect (obj wd) = Some r /\
  current_rectangle (obj wd) = r /\
  exists later,
    calls wd = later ++ [mkCall false (Some r) (zeros_mask img)] /\
    Forall (fun c => call_initialized c = true /\ call_rect c = Some r) later.
Proof.
  intros Hstay r wd. subst r wd. unfold run. rewrite steps_app.
  set (wd := steps (start img output_path') evsA).
  change (steps wd (Key KEY_ENTER :: evsB))
    with (steps (step wd (Key KEY_ENTER)) evsB).
  assert (Hu : untouched img wd)
    by (apply steps_untouched; [apply start_untouched | done]).
  pose proof (confirm_untouched img wd Hu) as (Hcalls & Hrect & Hi & Hres).
  assert (Hf : frozen (current_rectangle (obj wd)) (step wd (Key KEY_ENTER))).
  { split; [done|]. split; [|split; [done|]].
    - destruct (grabCut _ _ _ _); destruct Hres as (-> & _); done.
    - rewrite step_enter_phaseA by apply Hu. apply confirm_keeps_rest. }
  destruct (steps_frozen _ _ evsB Hf) as ((_ & _ & Hr & Hc) & later & Hlater & Hall).
  split; [done|]. split; [done|].
  exists later. by rewrite Hlater, Hcalls.
Qed.

Lemma refinements_reuse_frozen_rectangle_witness :
  let wd := @run toy_cv2 sample_image "segmented.png"
              [Mouse EVENT_LBUTTONDOWN 1 1; Mouse EVENT_LBUTTONUP 4 4; Key KEY_ENTER;
               Mouse EVENT_LBUTTONDOWN 0 0; Mouse EVENT_LBUTTONUP 5 5; Key KEY_ENTER] in
  rect (obj wd) = Some (1, 1, 3, 3) /\
  map call_initialized (calls wd) = [true; false].
Proof.
  intros wd.
  destruct (@refinements_reuse_frozen_rectangle toy_cv2 sample_image "segmented.png"
              [Mouse EVENT_LBUTTONDOWN 1 1; Mouse EVENT_LBUTTONUP 4 4]
              [Mouse EVENT_LBUTTONDOWN 0 0; Mouse EVENT_LBUTTONUP 5 5; Key KEY_ENTER])
    as (Hrect & _).
  - by repeat constructor.
  - split; [exact Hrect | by vm_compute].
Defined.

(** X16: a refinement is handed the mask with the strokes painted since the
    last call: after a pointer-down at a point and Enter, the engine call
    made last carries the mask with the brush's disc on it. *)
Theorem refinement_sees_strokes `{Cv2} (wd : World) (mx my : Z) :
  phase wd = PhaseB ->
  let wd' := steps wd [Mouse EVENT_LBUTTONDOWN mx my; Key KEY_ENTER] in
  calls wd' =
    mkCall (segmentation_initialized (obj wd)) (rect (obj wd))
           (circle (mask (obj wd)) (mx, my) 3 (brush (obj wd)).2) :: calls wd.
Proof.
  intros Hp wd'. subst wd'.
  change (steps wd [Mouse EVENT_LBUTTONDOWN mx my; Key KEY_ENTER])
    with (step (step wd (Mouse EVENT_LBUTTONDOWN mx my)) (Key KEY_ENTER)).
  rewrite (step_mouse_phaseB wd) by done.
  rewrite step_key_phaseB by (by rewrite draw_markers_phase).
  unfold refine_key, segment, draw_markers.
  destruct (brush (obj wd)) as [color marker]. simpl.
  by destruct (grabCut _ _ _ _).
Qed.

Lemma refinement_sees_strokes_witness :
  let wd := @run toy_cv2 sample_image "segmented.png"
              [Mouse EVENT_LBUTTONDOWN 1 1; Mouse EVENT_LBUTTONUP 4 4; Key KEY_ENTER;
               Key KEY_SPACE] in
  let wd' := @steps toy_cv2 wd [Mouse EVENT_LBUTTONDOWN 0 0; Key KEY_ENTER] in
  (head (calls wd')) ≫= (fun c => cell (call_mask c) 0 0) = Some GC_FGD /\
  call_initialized <$> head (calls wd') = Some true.
Proof.
  intros wd wd'.
  pose proof (@refinement_sees_strokes toy_cv2 wd 0 0 eq_refl) as Hcalls.
  fold wd' in Hcalls. rewrite Hcalls. split; by vm_compute.
Defined.

(** X17: the default brush is background: without a toggle, the first
    pointer-down after the first segmentation stamps definite background on
    the mask the engine returned, and a black disc on the overlay. *)
Theorem first_stroke_is_background `{Cv2} (img : Image) (output_path' : string)
    (evsA : list Event) (m : list (list Z)) (mx my : Z) :
  Forall (fun ev => stays_in_phaseA ev = true) evsA ->
  let before := run img output_path' evsA in
  grabCut img (zeros_mask img) (Some (current_rectangle (obj before)))
          GC_INIT_WITH_RECT = Returned m ->
  let wd := run img output_path'
              (evsA ++ [Key KEY_ENTER; Mouse EVENT_LBUTTONDOWN mx my]) in
  mask (obj wd) = circle m (mx, my) 3 GC_BGD /\
  image (obj wd) = circle (image (obj before)) (mx, my) 3 black.
Proof.
  intros Hstay before Hret wd. subst wd before. unfold run in *.
  rewrite steps_app.
  set (wd := steps (start img output_path') evsA) in *.
  change (steps wd [Key KEY_ENTER; Mouse EVENT_LBUTTONDOWN mx my])
    with (step (step wd (Key KEY_ENTER)) (Mouse EVENT_LBUTTONDOWN mx my)).
  assert (Hu : untouched img wd)
    by (apply steps_untouched; [apply start_untouched | done]).
  pose proof (confirm_untouched img wd Hu) as (_ & _ & _ & Hres).
  rewrite Hret in Hres. destruct Hres as (Hp & Hm & _).
  rewrite step_mouse_phaseB by done.
  assert (Hrest : background (obj (step wd (Key KEY_ENTER))) = true /\
                  image (obj (step wd (Key KEY_ENTER))) = image (obj wd)).
  { rewrite step_enter_phaseA by apply Hu.
    destruct (confirm_keeps_rest wd) as (_ & -> & -> & _).
    split; [apply Hu | done]. }
  destruct Hrest as [Hb Himg].
  unfold draw_markers, brush. rewrite Hb. simpl. by rewrite Hm, Himg.
Qed.

Lemma first_stroke_is_background_witness :
  let wd := @run lenient_cv2 sample_image "segmented.png"
              [Mouse EVENT_LBUTTONDOWN 1 1; Key KEY_ENTER;
               Mouse EVENT_LBUTTONDOWN 2 2] in
  mask (obj wd) = @circle lenient_cv2 _ (zeros_mask sample_image) (2, 2) 3 GC_BGD.
Proof.
  intros wd.
  destruct (@first_stroke_is_background lenient_cv2 sample_image "segmented.png"
              [Mouse EVENT_LBUTTONDOWN 1 1] (zeros_mask sample_image) 2 2)
    as (Hmask & _).
  - by repeat constructor.
  - reflexivity.
  - exact Hmask.
Defined.

(** ** The preview before the first segmentation *)

Lemma composite_zero_mask (img : list (list (Z * Z * Z))) :
  composite img (zeros_mask img) = zeros_like img.
Proof.
  unfold composite, bitwise_and, where_foreground, zeros_mask, zeros_like.
  induction img as [|line img IH]; simpl; [done|].
  f_equal; [|exact IH].
  clear IH. induction line as [|p line IH]; simpl; [done|]. by f_equal.
Qed.

(** X18: all through the first loop the preview buffer is the composite of
    the loaded image and the mask: the all-zero buffer the object is
    created with is what compositing the all-background mask gives. *)
Theorem preview_consistent_in_first_loop `{Cv2} (img : Image)
    (output_path' : string) (evs : list Event) :
  Forall (fun ev => stays_in_phaseA ev = true) evs ->
  let self := obj (run img output_path' evs) in
  segmented_image self = composite (original_image self) (mask self).
Proof.
  intros Hstay self. subst self.
  assert (Hu : untouched img (run img output_path' evs))
    by (apply steps_untouched; [apply start_untouched | done]).
  destruct Hu as (_ & _ & _ & _ & -> & -> & -> & _).
  by rewrite composite_zero_mask.
Qed.

Lemma preview_consistent_in_first_loop_witness :
  let self := obj (@run toy_cv2 sample_image "segmented.png"
                     [Mouse EVENT_LBUTTONDOWN 1 1; Mouse EVENT_MOUSEMOVE 2 3;
                      Mouse EVENT_LBUTTONUP 4 4; Key KEY_SPACE]) in
  segmented_image self = composite (original_image self) (mask self).
Proof.
  apply (@preview_consistent_in_first_loop toy_cv2 sample_image "segmented.png").
  by repeat constructor.
Defined.

Lemma string_length_append (s1 s2 : string) :
  String.length (s1 +:+ s2) = (String.length s1 + String.length s2)%nat.
Proof. induction s1 as [|a s1 IH]; simpl; [done | by rewrite IH]. Qed.

(** X19: an output path of fewer than four characters - the empty path
    among them - cannot end in a recognized extension, so the save key
    writes to output.jpg. *)
Theorem short_path_falls_back (path : string) :
  (String.length path < 4)%nat -> save_target path = "output.jpg".
Proof.
  intros Hshort. unfold save_target.
  destruct (endswith path ".png") eqn:Hpng.
  { apply endswith_spec in Hpng as [stem ->].
    rewrite string_length_append in Hshort. simpl in Hshort. lia. }
  destruct (endswith path ".jpg") eqn:Hjpg; [|done].
  apply endswith_spec in Hjpg as [stem ->].
  rewrite string_length_append in Hshort. simpl in Hshort. lia.
Qed.

Lemma short_path_falls_back_witness :
  save_target "" = "output.jpg" /\ save_target "jpg" = "output.jpg".
Proof.
  split; apply short_path_falls_back; simpl; lia.
Defined.
